(** * Exercise-1 downloader: a shallow embedding of [main.py]

    The program fetches a list of zip archives over HTTP, writes each one
    into a [downloads] directory, unpacks it next to itself and removes
    the archive.  Three orchestrators (sequential, thread pool, asyncio)
    drive the same two leaf operations.

    The embedding threads an explicit world (file system and an
    observable trace) through a state-and-exception monad.  What the
    libraries answer (the HTTP server, the zip decoder, the scheduler) is
    read from an environment record, so every statement holds for all
    servers, archives and interleavings. *)

From Stdlib Require Import ZArith Ascii String List Lia.
From stdpp Require Import gmap strings list fin_maps.

Local Open Scope Z_scope.
Local Open Scope string_scope.
Local Open Scope list_scope.

(** ** Data *)

Abbreviation bytes := (list Byte.byte).

(** A [pathlib.Path] relative to the working directory, as its list of
    components; [[]] is the working directory itself. *)
Abbreviation path := (list string).

Inductive node : Type :=
| File (data : bytes)
| Dir.

(** Python exceptions the program can meet.  [HTTPError] and
    [TransportError] stand for the [requests.exceptions.RequestException]
    family (and for [aiohttp.ClientError] / [asyncio.TimeoutError] in the
    asyncio fetcher); the four file errors are [OSError]s that are not
    [RequestException]s; [KeyboardInterrupt] is the only one outside
    [Exception]. *)
Inductive exn : Type :=
| HTTPError (status : Z)
| TransportError
| BadZipFile
| FileNotFoundError
| IsADirectoryError
| NotADirectoryError
| FileExistsError
| EOFError
| KeyboardInterrupt.

Definition is_RequestException (e : exn) : bool :=
  match e with
  | HTTPError _ | TransportError => true
  | _ => false
  end.

Definition is_Exception (e : exn) : bool :=
  match e with
  | KeyboardInterrupt => false
  | _ => true
  end.

Definition is_EOFError_or_KeyboardInterrupt (e : exn) : bool :=
  match e with
  | EOFError | KeyboardInterrupt => true
  | _ => false
  end.

Definition is_OSError (e : exn) : bool :=
  match e with
  | FileNotFoundError | IsADirectoryError | NotADirectoryError
  | FileExistsError => true
  | _ => false
  end.

(** Lines written by [print].  The check mark / cross prefixes of the
    source are the constructors. *)
Inductive message : Type :=
| Downloading (filename : string)
| Downloaded (filename : string)
| FailedDownload (uri : string) (e : exn)
| Extracted (name : string)
| FailedExtract (zip_filepath : path) (e : exn)
| Text (line : string).

Inductive event : Type :=
| Print (m : message)
| HttpGet (uri : string) (timeout : Z)
| WriteChunk (p : path) (chunk : bytes).

Record world : Type := World {
  fs : gmap path node;
  trace : list event
}.

(** What the server answers to a GET: no answer at all (DNS failure,
    refused or reset connection, timeout), or a status line followed by a
    body whose stream may break after [broken] chunks. *)
Inductive response : Type :=
| Unreachable
| Response (status : Z) (body : bytes) (broken : option nat).

(** The parts of the run the program does not decide: the server, what
    [zipfile] finds in a file (its entries, or [None] for a file that is
    not an archive), the scheduler's choice at each step of a concurrent
    run, and standard input (whether it is a terminal, and the line the
    operator types, [None] at end of input). *)
Record env : Type := Env {
  http : string → response;
  zip_decode : bytes → option (list (string * bytes));
  sched : nat → nat;
  stdin_isatty : bool;
  stdin_line : option string
}.

(** ** The monad: environment, world, exceptions *)

Inductive result (A : Type) : Type :=
| Ret (a : A)
| Raise (e : exn).
Arguments Ret {A} a.
Arguments Raise {A} e.

Definition M (A : Type) : Type := env → world → world * result A.

Definition ret {A} (a : A) : M A := λ _ w, (w, Ret a).

Definition raise {A} (e : exn) : M A := λ _ w, (w, Raise e).

Definition bind {A B} (c : M A) (k : A → M B) : M B :=
  λ ev w,
    match c ev w with
    | (w', Ret a) => k a ev w'
    | (w', Raise e) => (w', Raise e)
    end.

(** [try: c  except <handles>: handler] *)
Definition try_except {A} (c : M A) (handles : exn → bool)
    (handler : exn → M A) : M A :=
  λ ev w,
    match c ev w with
    | (w', Ret a) => (w', Ret a)
    | (w', Raise e) => if handles e then handler e ev w' else (w', Raise e)
    end.

Notation "'let*' x ':=' c 'in' k" := (bind c (λ x, k))
  (at level 10, x name, c at level 100, k at level 200, only parsing).
Notation "c '>>' k" := (bind c (λ _, k))
  (at level 65, right associativity, only parsing).

Definition ask : M env := λ ev w, (w, Ret ev).
Definition get_fs : M (gmap path node) := λ _ w, (w, Ret (fs w)).
Definition put_fs (m : gmap path node) : M unit :=
  λ _ w, (World m (trace w), Ret tt).
Definition emit (e : event) : M unit :=
  λ _ w, (World (fs w) (trace w ++ [e]), Ret tt).
Definition print (m : message) : M unit := emit (Print m).

Fixpoint for_each {A} (l : list A) (body : A → M unit) : M unit :=
  match l with
  | [] => ret tt
  | x :: rest => body x >> for_each rest body
  end.

(** ** Strings and paths *)

(** [s.split(sep)] for a one-character separator. *)
Fixpoint split (sep : ascii) (s : string) : list string :=
  match s with
  | EmptyString => [EmptyString]
  | String c rest =>
      if Ascii.eqb c sep then EmptyString :: split sep rest
      else match split sep rest with
           | h :: t => String c h :: t
           | [] => [String c EmptyString]
           end
  end.

(** White space as [str.isspace] sees it among the code points below
    256: tab to carriage return, the four separators 0x1c-0x1f, the
    blank, NEL (0x85) and the no-break space (0xa0). *)
Definition is_space (c : ascii) : bool :=
  let n := nat_of_ascii c in
  ((9 <=? n) && (n <=? 13) || (28 <=? n) && (n <=? 32)
   || (n =? 133) || (n =? 160))%nat.

Fixpoint lstrip (s : string) : string :=
  match s with
  | EmptyString => EmptyString
  | String c rest => if is_space c then lstrip rest else s
  end.

Fixpoint rstrip (s : string) : string :=
  match s with
  | EmptyString => EmptyString
  | String c rest =>
      match rstrip rest with
      | EmptyString => if is_space c then EmptyString else String c EmptyString
      | r => String c r
      end
  end.

Definition strip (s : string) : string := rstrip (lstrip s).

(** [zip_filepath.parent] and [zip_filepath.name]. *)
Definition parent (p : path) : path := removelast p.
Definition name (p : path) : string := List.last p "".

(** [downloads_dir / filename] for a [filename] without a slash, as the
    operating system resolves it: an empty or dot segment stays in the
    directory, a double dot leaves it. *)
Definition path_join (d : path) (filename : string) : path :=
  if decide (filename = "" ∨ filename = ".") then d
  else if decide (filename = "..") then parent d
  else d ++ [filename].

(** ** File system *)

(** The node at [p]; the working directory always exists. *)
Definition node_at (m : gmap path node) (p : path) : option node :=
  match p with
  | [] => Some Dir
  | _ => m !! p
  end.

Definition is_dir (m : gmap path node) (p : path) : bool :=
  match node_at m p with
  | Some Dir => true
  | _ => false
  end.

(** [zip_filepath.exists()] *)
Definition path_exists (p : path) : M bool :=
  let* m := get_fs in
  ret (match node_at m p with Some _ => true | None => false end).

(** Why [open(p, 'wb')] would fail, if it would: [p] is a directory, or
    the directory that should hold it is missing or is a file. *)
Definition open_error (m : gmap path node) (p : path) : option exn :=
  match node_at m p with
  | Some Dir => Some IsADirectoryError
  | _ =>
      match node_at m (parent p) with
      | Some Dir => None
      | Some (File _) => Some NotADirectoryError
      | None => Some FileNotFoundError
      end
  end.

Definition writable (m : gmap path node) (p : path) : bool :=
  negb (is_dir m p) && is_dir m (parent p).

(** [open(p, 'wb')]: creates or truncates the file. *)
Definition open_wb (p : path) : M unit :=
  let* m := get_fs in
  match open_error m p with
  | Some e => raise e
  | None => put_fs (<[p := File []]> m)
  end.

(** [f.write(chunk)] on the file opened at [p]. *)
Definition write (p : path) (chunk : bytes) : M unit :=
  let* m := get_fs in
  put_fs (alter (λ n, match n with
                      | File data => File (data ++ chunk)
                      | Dir => Dir
                      end) p m) >>
  emit (WriteChunk p chunk).

(** [os.remove(p)] *)
Definition os_remove (p : path) : M unit :=
  let* m := get_fs in
  match node_at m p with
  | Some (File _) => put_fs (delete p m)
  | Some Dir => raise IsADirectoryError
  | None => raise FileNotFoundError
  end.

(** [Path(...).mkdir(exist_ok=True)] *)
Definition mkdir_exist_ok (p : path) : M unit :=
  let* m := get_fs in
  match node_at m p with
  | Some Dir => ret tt
  | Some (File _) => raise FileExistsError
  | None =>
      match node_at m (parent p) with
      | Some Dir => put_fs (<[p := Dir]> m)
      | Some (File _) => raise NotADirectoryError
      | None => raise FileNotFoundError
      end
  end.

(** ** HTTP *)

Definition chunk_size : nat := Z.to_nat 8192.

Fixpoint chunked_aux (fuel n : nat) (b : bytes) : list bytes :=
  match fuel with
  | O => []
  | S fuel' =>
      match b with
      | [] => []
      | _ => take n b :: chunked_aux fuel' n (drop n b)
      end
  end.

(** The body cut into pieces of [n] bytes, the last one possibly
    shorter. *)
Definition chunked (n : nat) (b : bytes) : list bytes :=
  chunked_aux (length b) n b.

(** [requests.get(uri, stream=True, timeout=t)] and
    [session.get(uri, timeout=ClientTimeout(total=t))]: the request is
    recorded, the server's answer is looked up. *)
Definition http_get (uri : string) (timeout : Z) : M response :=
  emit (HttpGet uri timeout) >>
  let* ev := ask in
  match http ev uri with
  | Unreachable => raise TransportError
  | r => ret r
  end.

Definition status_of (r : response) : Z :=
  match r with
  | Unreachable => 0
  | Response s _ _ => s
  end.

(** [requests.Response.raise_for_status]: an [HTTPError] for a 4xx or a
    5xx status, nothing otherwise. *)
Definition raise_for_status (r : response) : M unit :=
  let s := status_of r in
  if ((400 <=? s) && (s <? 600))%Z then raise (HTTPError s) else ret tt.

(** [aiohttp.ClientResponse.raise_for_status]: an error from 400 up. *)
Definition raise_for_status_aio (r : response) : M unit :=
  let s := status_of r in
  if (400 <=? s)%Z then raise (HTTPError s) else ret tt.

(** [for chunk in response.iter_content(chunk_size=n): f.write(chunk)]
    (and its [iter_chunked] twin): the chunks that arrive are written one
    by one; a broken stream raises after the chunks it delivered. *)
Definition write_stream (p : path) (n : nat) (r : response) : M unit :=
  match r with
  | Unreachable => raise TransportError
  | Response _ body None =>
      for_each (chunked n body) (write p)
  | Response _ body (Some k) =>
      for_each (take k (chunked n body)) (write p) >> raise TransportError
  end.

(** ** The program *)

Definition download_uris : list string :=
  [ "https://divvy-tripdata.s3.amazonaws.com/Divvy_Trips_2018_Q4.zip";
    "https://divvy-tripdata.s3.amazonaws.com/Divvy_Trips_2019_Q1.zip";
    "https://divvy-tripdata.s3.amazonaws.com/Divvy_Trips_2019_Q2.zip";
    "https://divvy-tripdata.s3.amazonaws.com/Divvy_Trips_2019_Q3.zip";
    "https://divvy-tripdata.s3.amazonaws.com/Divvy_Trips_2019_Q4.zip";
    "https://divvy-tripdata.s3.amazonaws.com/Divvy_Trips_2020_Q1.zip";
    "https://divvy-tripdata.s3.amazonaws.com/Divvy_Trips_2220_Q1.zip" ].

Definition create_downloads_directory : M path :=
  let downloads_dir := ["downloads"] in
  mkdir_exist_ok downloads_dir >>
  ret downloads_dir.

Definition extract_filename_from_uri (uri : string) : string :=
  List.last (split "/" uri) "".

Definition download_file_sync (uri : string) (downloads_dir : path)
    : M (option path) :=
  try_except
    (let filename := extract_filename_from_uri uri in
     let filepath := path_join downloads_dir filename in
     print (Downloading filename) >>
     let* response := http_get uri 30 in
     raise_for_status response >>
     open_wb filepath >>
     write_stream filepath chunk_size response >>
     print (Downloaded filename) >>
     ret (Some filepath))
    is_RequestException
    (λ e, print (FailedDownload uri e) >> ret None).

(** [zipfile.ZipFile(p, 'r')]: the entries of the archive at [p]. *)
Definition ZipFile (p : path) : M (list (string * bytes)) :=
  let* m := get_fs in
  match node_at m p with
  | None => raise FileNotFoundError
  | Some Dir => raise IsADirectoryError
  | Some (File data) =>
      let* ev := ask in
      match zip_decode ev data with
      | None => raise BadZipFile
      | Some entries => ret entries
      end
  end.

(** [zip_ref.extractall(extract_dir)]: every entry is written under
    [extract_dir], in archive order; entry names are single components
    (a flat archive). *)
Definition extractall (extract_dir : path) (entries : list (string * bytes))
    : M unit :=
  for_each entries
    (λ entry,
       let target := extract_dir ++ [entry.1] in
       open_wb target >>
       let* m := get_fs in
       put_fs (<[target := File entry.2]> m)).

Definition namelist (entries : list (string * bytes)) : list string :=
  entries.*1.

Definition extract_zip_file (zip_filepath : path)
    : M (option (list string)) :=
  try_except
    (let* zip_ref := ZipFile zip_filepath in
     let extract_dir := parent zip_filepath in
     extractall extract_dir zip_ref >>
     let extracted_files := namelist zip_ref in
     os_remove zip_filepath >>
     print (Extracted (name zip_filepath)) >>
     ret (Some extracted_files))
    is_Exception
    (λ e,
       print (FailedExtract zip_filepath e) >>
       let* still_there := path_exists zip_filepath in
       (if still_there then os_remove zip_filepath else ret tt) >>
       ret None).

Definition download_and_extract_sync (uri : string) (downloads_dir : path)
    : M unit :=
  let* zip_filepath := download_file_sync uri downloads_dir in
  match zip_filepath with
  | Some p => extract_zip_file p >> ret tt
  | None => ret tt
  end.

(** The sequential orchestrator.  The module-level list [download_uris]
    is passed as [uris]; the elapsed time in the last line is left out. *)
Definition main_sync (uris : list string) : M unit :=
  print (Text "Starting synchronous download...") >>
  let* downloads_dir := create_downloads_directory in
  for_each uris (λ uri, download_and_extract_sync uri downloads_dir) >>
  print (Text "Synchronous download completed").

(** *** Units of work under a scheduler

    In the two concurrent orchestrators a unit of work is one call of
    [download_and_extract_sync] (or of its asyncio twin).  The fetch and
    the unpacking are its two atomic actions; between them the scheduler
    may run actions of other units. *)
Inductive stage : Type :=
| Fetch (uri : string)
| Unpack (zip_filepath : path).

Record pool : Type := Pool {
  queue : list (nat * stage);
  running : list (nat * stage);
  finished : list (nat * result unit)
}.

(** [executor.submit] / task creation, in list order; a future is named
    by its position. *)
Definition submit_all (uris : list string) : pool :=
  Pool (imap (λ i uri, (i, Fetch uri)) uris) [] [].

(** Idle workers take the oldest queued units; [None] is an unbounded
    number of workers. *)
Definition start_queued (max_workers : option nat) (pl : pool) : pool :=
  let free :=
    match max_workers with
    | Some k => (k - length (running pl))%nat
    | None => length (queue pl)
    end in
  Pool (drop free (queue pl)) (running pl ++ take free (queue pl))
       (finished pl).

(** One atomic action of the running unit the scheduler picks.  An
    exception ends the unit; it is kept in the unit's future, or, when
    [fail_fast] is set, raised to the caller at once. *)
Definition unit_step (fail_fast : bool) (step : stage → M (option stage))
    (choice : nat) (pl : pool) : M pool :=
  let i := (choice mod length (running pl))%nat in
  match running pl !! i with
  | None => ret pl
  | Some (id, s) =>
      λ ev w,
        match step s ev w with
        | (w', Ret (Some s')) =>
            (w', Ret (Pool (queue pl) (<[i := (id, s')]> (running pl))
                           (finished pl)))
        | (w', Ret None) =>
            (w', Ret (Pool (queue pl) (delete i (running pl))
                           (finished pl ++ [(id, Ret tt)])))
        | (w', Raise e) =>
            if fail_fast then (w', Raise e)
            else (w', Ret (Pool (queue pl) (delete i (running pl))
                                (finished pl ++ [(id, Raise e)])))
        end
  end.

Fixpoint run_units (max_workers : option nat) (fail_fast : bool)
    (step : stage → M (option stage)) (fuel t : nat) (pl : pool) : M pool :=
  match fuel with
  | O => ret pl
  | S fuel' =>
      let* ev := ask in
      let* pl' := unit_step fail_fast step (sched ev t)
                    (start_queued max_workers pl) in
      run_units max_workers fail_fast step fuel' (S t) pl'
  end.

(** Two actions per unit are all a run can take. *)
Definition enough_fuel (uris : list string) : nat := (2 * length uris)%nat.

Definition step_sync (downloads_dir : path) (s : stage) : M (option stage) :=
  match s with
  | Fetch uri =>
      let* zip_filepath := download_file_sync uri downloads_dir in
      ret (Unpack <$> zip_filepath)
  | Unpack p => extract_zip_file p >> ret None
  end.

Fixpoint lookup_future (fin : list (nat * result unit)) (id : nat)
    : option (result unit) :=
  match fin with
  | [] => None
  | (id', r) :: rest =>
      if decide (id' = id) then Some r else lookup_future rest id
  end.

(** [future.result()] once the unit is done: its exception, if it ended
    with one. *)
Definition future_result (pl : pool) (id : nat) : M unit :=
  match lookup_future (finished pl) id with
  | Some (Raise e) => raise e
  | _ => ret tt
  end.

(** The [with ThreadPoolExecutor(max_workers=3)] block up to the point
    where every unit is done.  Leaving the block waits for all of them
    ([shutdown(wait=True)]) whether or not a [future.result()] raised,
    and waiting does not act on the world, so the units are run first
    and the futures are read afterwards. *)
Definition threaded_units (uris : list string) (downloads_dir : path)
    : M pool :=
  run_units (Some 3%nat) false (step_sync downloads_dir)
    (enough_fuel uris) 0 (submit_all uris).

Definition main_threaded (uris : list string) : M unit :=
  print (Text "Starting threaded download...") >>
  let* downloads_dir := create_downloads_directory in
  let* pl := threaded_units uris downloads_dir in
  for_each (seq 0 (length uris)) (future_result pl) >>
  print (Text "Threaded download completed").

Inductive ClientSession : Type := Session.

Definition download_file_async (session : ClientSession) (uri : string)
    (downloads_dir : path) : M (option path) :=
  try_except
    (let filename := extract_filename_from_uri uri in
     let filepath := path_join downloads_dir filename in
     print (Downloading filename) >>
     let* response := http_get uri 60 in
     raise_for_status_aio response >>
     open_wb filepath >>
     write_stream filepath chunk_size response >>
     print (Downloaded filename) >>
     ret (Some filepath))
    is_Exception
    (λ e, print (FailedDownload uri e) >> ret None).

(** [run_in_executor(None, extract_zip_file, zip_filepath)] is awaited
    at once, so within the unit it is a call. *)
Definition download_and_extract_async (session : ClientSession)
    (uri : string) (downloads_dir : path) : M unit :=
  let* zip_filepath := download_file_async session uri downloads_dir in
  match zip_filepath with
  | Some p => extract_zip_file p >> ret tt
  | None => ret tt
  end.

(** The two actions of [download_and_extract_async]; the unpacking is
    the call handed to [run_in_executor]. *)
Definition step_async (session : ClientSession) (downloads_dir : path)
    (s : stage) : M (option stage) :=
  match s with
  | Fetch uri =>
      let* zip_filepath := download_file_async session uri downloads_dir in
      ret (Unpack <$> zip_filepath)
  | Unpack p => extract_zip_file p >> ret None
  end.

(** [await asyncio.gather] over all tasks: every task is started; the first
    exception of a task is raised to the caller at once. *)
Definition gathered_units (session : ClientSession) (uris : list string)
    (downloads_dir : path) : M pool :=
  run_units None true (step_async session downloads_dir)
    (enough_fuel uris) 0 (submit_all uris).

Definition main_async (uris : list string) : M unit :=
  print (Text "Starting async download...") >>
  let* downloads_dir := create_downloads_directory in
  let session := Session in
  gathered_units session uris downloads_dir >>
  print (Text "Async download completed").

Definition asyncio_run (c : M unit) : M unit := c.

(** [input(prompt)] *)
Definition input (prompt : string) : M string :=
  print (Text prompt) >>
  let* ev := ask in
  match stdin_line ev with
  | Some line => ret line
  | None => raise EOFError
  end.

Definition menu : M unit :=
  print (Text "Choose download method:") >>
  print (Text "1. Synchronous (basic)") >>
  print (Text "2. Threaded") >>
  print (Text "3. Async").

Definition main (uris : list string) : M unit :=
  try_except
    (let* ev := ask in
     if negb (stdin_isatty ev) then
       print (Text "Running in non-interactive mode, using synchronous download...") >>
       main_sync uris
     else
       menu >>
       let* line := input "Enter choice (1-3) or press Enter for sync: " in
       let choice := strip line in
       if decide (choice = "2") then main_threaded uris
       else if decide (choice = "3") then asyncio_run (main_async uris)
       else main_sync uris)
    is_EOFError_or_KeyboardInterrupt
    (λ _,
       print (Text "No input available, running synchronous download...") >>
       main_sync uris).

(** ** Observations on a run *)

(** What a run appended to the trace. *)
Definition since (w w' : world) : list event :=
  drop (length (trace w)) (trace w').

(** The GET requests of a trace, with their timeouts. *)
Definition requests_of (tr : list event) : list (string * Z) :=
  omap (λ e, match e with HttpGet u t => Some (u, t) | _ => None end) tr.

(** The chunks handed to [f.write], in order. *)
Definition writes_of (tr : list event) : list bytes :=
  omap (λ e, match e with WriteChunk _ c => Some c | _ => None end) tr.

(** The lines that close a unit: the success line of the unpacker and
    the two failure lines. *)
Definition is_record (m : message) : bool :=
  match m with
  | Extracted _ | FailedDownload _ _ | FailedExtract _ _ => true
  | _ => false
  end.

Definition records_of (tr : list event) : list message :=
  omap (λ e, match e with
             | Print m => if is_record m then Some m else None
             | _ => None
             end) tr.

Definition is_failure (m : message) : bool :=
  match m with
  | FailedDownload _ _ | FailedExtract _ _ => true
  | _ => false
  end.

Definition is_success (m : message) : bool :=
  match m with
  | Extracted _ => true
  | _ => false
  end.

(** The record that belongs to a locator. *)
Definition record_for (downloads_dir : path) (uri : string) (m : message)
    : Prop :=
  let filepath := path_join downloads_dir (extract_filename_from_uri uri) in
  m = Extracted (name filepath)
  ∨ (∃ e, m = FailedDownload uri e)
  ∨ (∃ e, m = FailedExtract filepath e).

(** The file system after the entries were written under [dir]. *)
Definition unpacked (dir : path) (entries : list (string * bytes))
    (m : gmap path node) : gmap path node :=
  foldl (λ m entry, <[dir ++ [entry.1] := File entry.2]> m) m entries.

(** The answer lets the blocking fetcher go on to open its file. *)
Definition passes_status (r : response) : bool :=
  match r with
  | Unreachable => false
  | Response s _ _ => negb ((400 <=? s) && (s <? 600))%Z
  end.

(** The same for the asyncio fetcher. *)
Definition passes_status_aio (r : response) : bool :=
  match r with
  | Unreachable => false
  | Response s _ _ => negb (400 <=? s)%Z
  end.

(** The chunks of a response that arrive. *)
Definition delivered (r : response) : list bytes :=
  match r with
  | Unreachable => []
  | Response _ body None => chunked chunk_size body
  | Response _ body (Some k) => take k (chunked chunk_size body)
  end.

Definition stream_breaks (r : response) : bool :=
  match r with
  | Response _ _ (Some _) => true
  | _ => false
  end.

(** The units of a pool that are not done. *)
Definition units (pl : pool) : list (nat * stage) :=
  queue pl ++ running pl.

(** The uris whose GET is still to come. *)
Definition stage_uris (s : stage) : list string :=
  match s with
  | Fetch uri => [uri]
  | Unpack _ => []
  end.

Fixpoint uris_of (us : list (nat * stage)) : list string :=
  match us with
  | [] => []
  | u :: rest => stage_uris u.2 ++ uris_of rest
  end.

Definition pending_uris (pl : pool) : list string := uris_of (units pl).

(** Atomic actions still to take. *)
Definition stage_work (s : stage) : nat :=
  match s with
  | Fetch _ => 2
  | Unpack _ => 1
  end.

Fixpoint work_of (us : list (nat * stage)) : nat :=
  match us with
  | [] => 0
  | u :: rest => stage_work u.2 + work_of rest
  end.

Definition pool_work (pl : pool) : nat := work_of (units pl).

(** Every unit is done. *)
Definition quiescent (pl : pool) : Prop :=
  queue pl = [] ∧ running pl = [].

(** The archive a unit is about to unpack is not a directory. *)
Definition stage_safe (m : gmap path node) (s : stage) : Prop :=
  match s with
  | Fetch _ => True
  | Unpack p => is_dir m p = false
  end.

Definition pool_safe (m : gmap path node) (pl : pool) : Prop :=
  Forall (λ u, stage_safe m u.2) (units pl).

(** The uris a trace asked for. *)
Definition gets (tr : list event) : list string := (requests_of tr).*1.

(** Two file systems with the same directories. *)
Definition same_dirs (m m' : gmap path node) : Prop :=
  ∀ q, is_dir m' q = is_dir m q.

(** *** The fetchers and the unpacker in closed form

    What a fetch does, case by case: [t] is the timeout, [passes] the
    status check and [catches_os] tells whether the handler also takes
    the error of a failed [open]. *)
Definition fetch_outcome (t : Z) (passes : response → bool)
    (catches_os : bool) (uri : string) (downloads_dir : path)
    (ev : env) (w : world) : world * result (option path) :=
  let filename := extract_filename_from_uri uri in
  let filepath := path_join downloads_dir filename in
  let started := [Print (Downloading filename); HttpGet uri t] in
  let r := http ev uri in
  match r with
  | Unreachable =>
      (World (fs w)
         (trace w ++ started ++ [Print (FailedDownload uri TransportError)]),
       Ret None)
  | Response s _ _ =>
      if passes r then
        match open_error (fs w) filepath with
        | Some e =>
            if catches_os then
              (World (fs w)
                 (trace w ++ started ++ [Print (FailedDownload uri e)]),
               Ret None)
            else (World (fs w) (trace w ++ started), Raise e)
        | None =>
            let m := <[filepath := File (concat (delivered r))]> (fs w) in
            let written := WriteChunk filepath <$> delivered r in
            if stream_breaks r then
              (World m
                 (trace w ++ started ++ written
                    ++ [Print (FailedDownload uri TransportError)]),
               Ret None)
            else
              (World m
                 (trace w ++ started ++ written
                    ++ [Print (Downloaded filename)]),
               Ret (Some filepath))
        end
      else
        (World (fs w)
           (trace w ++ started ++ [Print (FailedDownload uri (HTTPError s))]),
         Ret None)
  end.

(** Writing the entries one by one: the file system reached, and the
    error that stopped the writing, if one did. *)
Fixpoint unpack (dir : path) (entries : list (string * bytes))
    (m : gmap path node) : gmap path node * option exn :=
  match entries with
  | [] => (m, None)
  | entry :: rest =>
      match open_error m (dir ++ [entry.1]) with
      | Some e => (m, Some e)
      | None => unpack dir rest (<[dir ++ [entry.1] := File entry.2]> m)
      end
  end.

Definition extract_outcome (p : path) (ev : env) (w : world)
    : world * result (option (list string)) :=
  match node_at (fs w) p with
  | None =>
      (World (fs w) (trace w ++ [Print (FailedExtract p FileNotFoundError)]),
       Ret None)
  | Some Dir =>
      (World (fs w) (trace w ++ [Print (FailedExtract p IsADirectoryError)]),
       Raise IsADirectoryError)
  | Some (File data) =>
      match zip_decode ev data with
      | None =>
          (World (delete p (fs w))
                 (trace w ++ [Print (FailedExtract p BadZipFile)]),
           Ret None)
      | Some entries =>
          match unpack (parent p) entries (fs w) with
          | (m, None) =>
              (World (delete p m) (trace w ++ [Print (Extracted (name p))]),
               Ret (Some (namelist entries)))
          | (m, Some e) =>
              (World (delete p m) (trace w ++ [Print (FailedExtract p e)]),
               Ret None)
          end
      end
  end.

(** *** Vocabulary of the properties *)

(** The fetcher reported a failure: it returned [None]. *)
Definition fetch_failed (uri : string) (downloads_dir : path) (ev : env)
    (w : world) : Prop :=
  ∃ w1, download_file_sync uri downloads_dir ev w = (w1, Ret None).

(** The fetcher returned a path and the unpacker did not return entry
    names for it. *)
Definition extract_failed (uri : string) (downloads_dir : path) (ev : env)
    (w : world) : Prop :=
  ∃ w1 p,
    download_file_sync uri downloads_dir ev w = (w1, Ret (Some p))
    ∧ ∀ names, (extract_zip_file p ev w1).2 ≠ Ret (Some names).

(** The body of a fetch went to disk chunk by chunk: no chunk is longer
    than 8192 bytes, every chunk but the last is that long, and after a
    successful fetch the chunks make up the body, which is the file. *)
Definition streamed (ev : env) (uri : string) (w : world)
    (out : world * result (option path)) : Prop :=
  let cs := writes_of (since w out.1) in
  Forall (λ c, (Z.of_nat (length c) ≤ 8192)%Z) cs
  ∧ (∀ i c, cs !! i = Some c → (S i < length cs)%nat →
       Z.of_nat (length c) = 8192%Z)
  ∧ ∀ p, out.2 = Ret (Some p) →
      ∃ s body,
        http ev uri = Response s body None
        ∧ concat cs = body
        ∧ node_at (fs out.1) p = Some (File body).

Definition is_file (m : gmap path node) (p : path) : bool :=
  match node_at m p with
  | Some (File _) => true
  | _ => false
  end.

(** Nothing in the file system stands in the way of the fetch of [uri]
    into [downloads_dir]: its request fails before the file is opened,
    or the file can be opened. *)
Definition unobstructed (ev : env) (m : gmap path node)
    (downloads_dir : path) (uri : string) : Prop :=
  passes_status (http ev uri) = false
  ∨ writable m (path_join downloads_dir (extract_filename_from_uri uri))
    = true.

(** Every exception a computation can end with satisfies [P]. *)
Definition raises_only {A} (P : exn → Prop) (c : M A) : Prop :=
  ∀ ev w w' e, c ev w = (w', Raise e) → P e.

(** The exceptions kept in futures satisfy [P]. *)
Definition futures_hold (P : exn → Prop) (fin : list (nat * result unit))
    : Prop :=
  Forall (λ f, ∀ e, f.2 = Raise e → P e) fin.

(** A unit taken through its actions with nothing in between. *)
Definition run_alone (step : stage → M (option stage)) (uri : string)
    : M unit :=
  let* next := step (Fetch uri) in
  match next with
  | Some s => step s >> ret tt
  | None => ret tt
  end.

(** ** A concrete environment for the examples

    A stand-in server and archive format, small enough to evaluate: two
    three-byte files count as archives, everything else is not one. *)

Definition sample_zip : bytes := [Byte.x50; Byte.x4b; Byte.x02].
Definition empty_zip : bytes := [Byte.x50; Byte.x4b; Byte.x00].

Definition sample_entries : list (string * bytes) :=
  [("a.csv", [Byte.x31]); ("b.csv", [Byte.x32])].

Definition sample_decode (b : bytes) : option (list (string * bytes)) :=
  match b with
  | [Byte.x50; Byte.x4b; Byte.x02] => Some sample_entries
  | [Byte.x50; Byte.x4b; Byte.x00] => Some []
  | _ => None
  end.

Definition sample_http (uri : string) : response :=
  if decide (uri = "http://data.test/sample.zip") then
    Response 200 sample_zip None
  else if decide (uri = "http://data.test/empty.zip") then
    Response 200 empty_zip None
  else if decide (uri = "http://data.test/missing.zip") then
    Response 404 [] None
  else if decide (uri = "http://data.test/choices.zip") then
    Response 300 [] None
  else if decide (uri = "http://data.test/broken.zip") then
    Response 200 sample_zip (Some 0%nat)
  else if decide (uri = "http://data.test/") then
    Response 200 sample_zip None
  else Unreachable.

Definition sample_env (isatty : bool) (line : option string) : env :=
  Env sample_http sample_decode (λ t, t) isatty line.

Definition headless : env := sample_env false None.

Definition empty_world : world := World ∅ [].

(** A working directory that already holds [downloads]. *)
Definition ready_world : world := World {[ ["downloads"] := Dir ]} [].

(** [downloads/sample.zip] is in place. *)
Definition fetched_world : world :=
  World (<[ ["downloads"; "sample.zip"] := File sample_zip ]>
           {[ ["downloads"] := Dir ]}) [].

(** As [fetched_world], but [downloads/a.csv] is a directory. *)
Definition blocked_world : world :=
  World (<[ ["downloads"; "a.csv"] := Dir ]> (fs fetched_world)) [].

(** [downloads/empty.zip], an archive without entries, is in place. *)
Definition empty_fetched_world : world :=
  World (<[ ["downloads"; "empty.zip"] := File empty_zip ]>
           {[ ["downloads"] := Dir ]}) [].

(** [downloads/notes.zip] is in place and is no archive. *)
Definition junk_world : world :=
  World (<[ ["downloads"; "notes.zip"] := File [Byte.x68; Byte.x69] ]>
           {[ ["downloads"] := Dir ]}) [].

(** An archive format in which one file holds the name [a.csv] twice. *)
Definition twice_zip : bytes := [Byte.x50; Byte.x4b; Byte.x03].

Definition twice_decode (b : bytes) : option (list (string * bytes)) :=
  match b with
  | [Byte.x50; Byte.x4b; Byte.x03] =>
      Some [("a.csv", [Byte.x31]); ("a.csv", [Byte.x32])]
  | _ => None
  end.

Definition twice_env : env :=
  Env sample_http twice_decode (λ t, t) false None.

Definition twice_world : world :=
  World (<[ ["downloads"; "twice.zip"] := File twice_zip ]>
           {[ ["downloads"] := Dir ]}) [].

(** ** Further vocabulary *)

(** [c in s] *)
Fixpoint contains (c : ascii) (s : string) : bool :=
  match s with
  | EmptyString => false
  | String c' rest => Ascii.eqb c' c || contains c rest
  end.

(** The file a fetch of [uri] into [downloads_dir] writes. *)
Definition target_of (downloads_dir : path) (uri : string) : path :=
  path_join downloads_dir (extract_filename_from_uri uri).

(** A change of the file system at one path: a node put there
    ([Some]), or whatever is there taken away ([None]). *)
Definition apply_ops (ops : list (path * option node))
    (m : gmap path node) : gmap path node :=
  foldl (λ m o, partial_alter (λ _, o.2) o.1 m) m ops.

(** What the last change at [k] leaves there, if [k] is changed. *)
Fixpoint assigned (ops : list (path * option node)) (k : path)
    : option (option node) :=
  match ops with
  | [] => None
  | o :: rest =>
      match assigned rest k with
      | Some v => Some v
      | None => if decide (o.1 = k) then Some o.2 else None
      end
  end.

(** The changes a fetch makes: with an answer that passes the status
    check and a file that can be opened, the chunks that arrive replace
    the file. *)
Definition fetch_ops (passes : response → bool) (uri : string)
    (downloads_dir : path) (ev : env) (m : gmap path node)
    : list (path * option node) :=
  let r := http ev uri in
  let p := target_of downloads_dir uri in
  if passes r && writable m p
  then [(p, Some (File (concat (delivered r))))]
  else [].

(** The changes of [extractall]: entries are written until one cannot
    be. *)
Fixpoint unpack_ops (dir : path) (entries : list (string * bytes))
    (m : gmap path node) : list (path * option node) :=
  match entries with
  | [] => []
  | entry :: rest =>
      if writable m (dir ++ [entry.1])
      then (dir ++ [entry.1], Some (File entry.2)) :: unpack_ops dir rest m
      else []
  end.

(** The changes of one call of [download_and_extract_sync]. *)
Definition unit_ops (uri : string) (downloads_dir : path) (ev : env)
    (m : gmap path node) : list (path * option node) :=
  let r := http ev uri in
  let p := target_of downloads_dir uri in
  let body := concat (delivered r) in
  if passes_status r && writable m p then
    (p, Some (File body))
    :: (if stream_breaks r then []
        else match zip_decode ev body with
             | None => [(p, None)]
             | Some entries =>
                 unpack_ops (parent p) entries m ++ [(p, None)]
             end)
  else [].

(** The call ends with an exception. *)
Definition unit_raises (uri : string) (downloads_dir : path) (ev : env)
    (m : gmap path node) : bool :=
  passes_status (http ev uri)
  && negb (writable m (target_of downloads_dir uri)).

(** The changes of the loop of [main_sync], which ends at the first call
    that raises. *)
Fixpoint loop_ops (uris : list string) (downloads_dir : path) (ev : env)
    (m : gmap path node) : list (path * option node) :=
  match uris with
  | [] => []
  | uri :: rest =>
      unit_ops uri downloads_dir ev m
      ++ (if unit_raises uri downloads_dir ev m then []
          else loop_ops rest downloads_dir ev m)
  end.

(** What the units of a pool and its futures have to do with the list of
    locators: a unit still to fetch carries the locator of its position;
    a unit about to unpack holds a path that is no directory, and its
    locator was not stopped by the file system; a future holds an
    exception exactly for a locator that was. *)
Definition unit_tracks (uris : list string) (ev : env) (m : gmap path node)
    (d : path) (u : nat * stage) : Prop :=
  match u.2 with
  | Fetch uri => uris !! u.1 = Some uri
  | Unpack p =>
      is_dir m p = false
      ∧ ∃ uri, uris !! u.1 = Some uri ∧ unobstructed ev m d uri
  end.

Definition future_tracks (uris : list string) (ev : env)
    (m : gmap path node) (d : path) (f : nat * result unit) : Prop :=
  ∃ uri,
    uris !! f.1 = Some uri
    ∧ match f.2 with
      | Ret _ => unobstructed ev m d uri
      | Raise _ => ¬ unobstructed ev m d uri
      end.

Definition pool_tracks (uris : list string) (ev : env) (m : gmap path node)
    (d : path) (w : world) (pl : pool) : Prop :=
  same_dirs m (fs w)
  ∧ Forall (unit_tracks uris ev m d) (units pl)
  ∧ Forall (future_tracks uris ev m d) (finished pl).

(** [m'] has the directories of [m], and differs from it only in what
    the directory [d] holds. *)
Definition kept (d : path) (m m' : gmap path node) : Prop :=
  same_dirs m m' ∧ ∀ q, parent q ≠ d → m' !! q = m !! q.

(** A unit about to unpack holds a path in [d]. *)
Definition stage_inside (d : path) (s : stage) : Prop :=
  match s with
  | Fetch _ => True
  | Unpack p => parent p = d
  end.

(** The computation leaves what is at [q] as it is. *)
Definition keeps {A} (q : path) (c : M A) : Prop :=
  ∀ ev w, fs (c ev w).1 !! q = fs w !! q.

(** The locators the loop of [main_sync] gets to: all up to the first
    whose call raises, that one included. *)
Fixpoint reached (uris : list string) (downloads_dir : path) (ev : env)
    (m : gmap path node) : list string :=
  match uris with
  | [] => []
  | uri :: rest =>
      uri :: (if unit_raises uri downloads_dir ev m then []
              else reached rest downloads_dir ev m)
  end.

(** * Proofs *)

(** ** The helpers at work *)

Example filename_of_first_uri :
  extract_filename_from_uri
    "https://divvy-tripdata.s3.amazonaws.com/Divvy_Trips_2018_Q4.zip"
  = "Divvy_Trips_2018_Q4.zip".
Proof. reflexivity. Qed.

Example filename_after_trailing_slash :
  extract_filename_from_uri "http://data.test/" = "".
Proof. reflexivity. Qed.

Example split_keeps_empty_fields :
  split "/" "a//b/" = ["a"; ""; "b"; ""].
Proof. reflexivity. Qed.

Example strip_both_ends :
  strip "  2 " = "2" ∧ strip "" = "" ∧ strip "a b" = "a b".
Proof. repeat split; reflexivity. Qed.

Example chunked_three_bytes :
  chunked 2 [Byte.x50; Byte.x4b; Byte.x02] = [[Byte.x50; Byte.x4b]; [Byte.x02]].
Proof. reflexivity. Qed.

Example downloads_paths :
  path_join ["downloads"] "x.zip" = ["downloads"; "x.zip"]
  ∧ path_join ["downloads"] "" = ["downloads"]
  ∧ parent ["downloads"; "x.zip"] = ["downloads"]
  ∧ name ["downloads"; "x.zip"] = "x.zip".
Proof. repeat split; reflexivity. Qed.

(** ** The file system *)

Ltac munfold :=
  unfold bind, ret, raise, try_except, ask, get_fs, put_fs, print, emit in *;
  simpl in *.

Lemma world_eta (w : world) : World (fs w) (trace w) = w.
Proof. by destruct w. Qed.

Lemma node_at_insert (m : gmap path node) (p q : path) (n : node) :
  p ≠ [] →
  node_at (<[p := n]> m) q = if decide (p = q) then Some n else node_at m q.
Proof.
  intros Hp. destruct q as [|c q]; simpl.
  - by rewrite decide_False.
  - by rewrite lookup_insert.
Qed.

Lemma node_at_delete (m : gmap path node) (p q : path) :
  p ≠ [] →
  node_at (delete p m) q = if decide (p = q) then None else node_at m q.
Proof.
  intros Hp. destruct q as [|c q]; simpl.
  - by rewrite decide_False.
  - by rewrite lookup_delete.
Qed.

Lemma is_dir_insert_file (m : gmap path node) (p q : path) (d : bytes) :
  is_dir m p = false → is_dir (<[p := File d]> m) q = is_dir m q.
Proof.
  intros Hp. unfold is_dir in *.
  rewrite node_at_insert by (by destruct p).
  case_decide; subst; [|done].
  by destruct (node_at m q) as [[]|].
Qed.

Lemma is_dir_delete_file (m : gmap path node) (p q : path) :
  is_dir m p = false → is_dir (delete p m) q = is_dir m q.
Proof.
  intros Hp. unfold is_dir in *.
  rewrite node_at_delete by (by destruct p).
  case_decide; subst; [|done].
  by destruct (node_at m q) as [[]|].
Qed.

Lemma open_error_writable (m : gmap path node) (p : path) :
  open_error m p = None ↔ writable m p = true.
Proof.
  unfold open_error, writable, is_dir.
  destruct (node_at m p) as [[]|], (node_at m (parent p)) as [[]|];
    simpl; split; congruence.
Qed.

Lemma open_error_not_writable (m : gmap path node) (p : path) :
  writable m p = false → ∃ e, open_error m p = Some e ∧ is_OSError e = true.
Proof.
  unfold open_error, writable, is_dir.
  destruct (node_at m p) as [[]|], (node_at m (parent p)) as [[]|];
    simpl; intros; try discriminate; eauto.
Qed.

Lemma open_error_is_OSError (m : gmap path node) (p : path) (e : exn) :
  open_error m p = Some e → is_OSError e = true.
Proof.
  unfold open_error.
  destruct (node_at m p) as [[]|], (node_at m (parent p)) as [[]|];
    intros; simplify_eq; done.
Qed.

Lemma writable_not_dir (m : gmap path node) (p : path) :
  writable m p = true → is_dir m p = false.
Proof. unfold writable. by destruct (is_dir m p). Qed.

Lemma same_dirs_trans (m1 m2 m3 : gmap path node) :
  same_dirs m1 m2 → same_dirs m2 m3 → same_dirs m1 m3.
Proof. intros H12 H23 q. by rewrite H23, H12. Qed.

Lemma same_dirs_writable (m m' : gmap path node) (p : path) :
  same_dirs m m' → writable m' p = writable m p.
Proof. intros H. unfold writable. by rewrite !H. Qed.

Lemma same_dirs_insert_file (m : gmap path node) (p : path) (d : bytes) :
  is_dir m p = false → same_dirs m (<[p := File d]> m).
Proof. intros H q. by apply is_dir_insert_file. Qed.

Lemma same_dirs_delete_file (m : gmap path node) (p : path) :
  is_dir m p = false → same_dirs m (delete p m).
Proof. intros H q. by apply is_dir_delete_file. Qed.

(** ** Chunks *)

Lemma chunked_aux_concat (n : nat) (fuel : nat) (b : bytes) :
  (0 < n)%nat → (length b ≤ fuel)%nat → concat (chunked_aux fuel n b) = b.
Proof.
  intros Hn. revert b. induction fuel as [|fuel IH]; intros b Hb.
  - destruct b; [done | simpl in Hb; lia].
  - destruct b as [|x b]; [done|].
    change (concat (chunked_aux (S fuel) n (x :: b)))
      with (take n (x :: b) ++ concat (chunked_aux fuel n (drop n (x :: b)))).
    rewrite IH, take_drop; [done|].
    rewrite length_drop. simpl in *. lia.
Qed.

Lemma chunked_concat (b : bytes) : concat (chunked chunk_size b) = b.
Proof.
  apply chunked_aux_concat; [|done].
  unfold chunk_size. lia.
Qed.

Lemma chunked_aux_bound (n : nat) (fuel : nat) (b : bytes) :
  Forall (λ c, (length c ≤ n)%nat) (chunked_aux fuel n b).
Proof.
  revert b. induction fuel as [|fuel IH]; intros b; [constructor|].
  destruct b as [|x b]; [constructor|].
  change (chunked_aux (S fuel) n (x :: b))
    with (take n (x :: b) :: chunked_aux fuel n (drop n (x :: b))).
  constructor; [|apply IH].
  rewrite length_take. lia.
Qed.

(** Every chunk but the last one is full. *)
Lemma chunked_aux_full (n : nat) (fuel : nat) (b : bytes) (i : nat)
    (c : bytes) :
  chunked_aux fuel n b !! i = Some c →
  (S i < length (chunked_aux fuel n b))%nat →
  length c = n.
Proof.
  revert b i. induction fuel as [|fuel IH]; intros b i; [done|].
  destruct b as [|x b]; [done|].
  change (chunked_aux (S fuel) n (x :: b))
    with (take n (x :: b) :: chunked_aux fuel n (drop n (x :: b))).
  destruct i as [|i]; simpl; intros Hc Hlen.
  - injection Hc as <-.
    destruct fuel as [|fuel]; [simpl in Hlen; lia|].
    destruct (drop n (x :: b)) as [|y r] eqn:Hd; [simpl in Hlen; lia|].
    assert (n < length (x :: b))%nat.
    { destruct (decide (n < length (x :: b))%nat); [done|].
      rewrite drop_ge in Hd by lia. done. }
    rewrite length_take. lia.
  - eapply IH; [exact Hc | lia].
Qed.

Lemma chunked_bound (b : bytes) :
  Forall (λ c, (length c ≤ chunk_size)%nat) (chunked chunk_size b).
Proof. apply chunked_aux_bound. Qed.

(** ** The leaf operations in closed form *)

Lemma for_each_write (p : path) (cs : list bytes) (ev : env) (w : world)
    (d0 : bytes) :
  fs w !! p = Some (File d0) →
  for_each cs (write p) ev w
  = (World (<[p := File (d0 ++ concat cs)]> (fs w))
           (trace w ++ (WriteChunk p <$> cs)), Ret tt).
Proof.
  revert w d0. induction cs as [|c cs IH]; intros w d0 Hp; simpl.
  - unfold ret. rewrite !app_nil_r, insert_id by done. by rewrite world_eta.
  - unfold bind at 1. unfold write at 1. munfold.
    rewrite (IH _ (d0 ++ c)); simpl.
    + f_equal. f_equal.
      * rewrite <- (app_assoc d0 c). apply map_eq. intros q.
        destruct (decide (p = q)) as [<-|Hne].
        -- by rewrite !lookup_insert_eq.
        -- by rewrite !lookup_insert_ne, lookup_alter_ne by done.
      * by rewrite <- app_assoc.
    + by rewrite lookup_alter_eq, Hp.
Qed.

Lemma writable_nonroot (m : gmap path node) (p : path) :
  open_error m p = None → p ≠ [].
Proof. unfold open_error. by destruct p. Qed.

Lemma fetch_generic (t : Z) (check : response → M unit)
    (passes : response → bool) (handles : exn → bool) (catches_os : bool)
    (uri : string) (d : path) (ev : env) (w : world) :
  (∀ s body br ev' w',
     check (Response s body br) ev' w'
     = if passes (Response s body br) then (w', Ret tt)
       else (w', Raise (HTTPError s))) →
  (∀ s, handles (HTTPError s) = true) →
  handles TransportError = true →
  (∀ e, is_OSError e = true → handles e = catches_os) →
  try_except
    (let filename := extract_filename_from_uri uri in
     let filepath := path_join d filename in
     print (Downloading filename) >>
     let* response := http_get uri t in
     check response >>
     open_wb filepath >>
     write_stream filepath chunk_size response >>
     print (Downloaded filename) >>
     ret (Some filepath))
    handles
    (λ e, print (FailedDownload uri e) >> ret None) ev w
  = fetch_outcome t passes catches_os uri d ev w.
Proof.
  intros Hcheck Hhttp Htransport Hos.
  unfold fetch_outcome, http_get, open_wb. munfold.
  destruct (http ev uri) as [|s body br] eqn:Hr; simpl.
  { rewrite Htransport. by rewrite <- !app_assoc. }
  rewrite Hcheck.
  destruct (passes (Response s body br)) eqn:Hpass; simpl;
    [|rewrite Hhttp; by rewrite <- !app_assoc].
  destruct (open_error (fs w) (path_join d (extract_filename_from_uri uri)))
    as [e|] eqn:Hopen; simpl.
  { rewrite (Hos e) by eauto using open_error_is_OSError.
    destruct catches_os; by rewrite <- ?app_assoc. }
  set (p := path_join d (extract_filename_from_uri uri)) in *.
  destruct br as [k|]; simpl; unfold bind.
  - rewrite (for_each_write p _ _ _ []) by (simpl; apply lookup_insert_eq).
    simpl. unfold raise. rewrite Htransport, insert_insert_eq.
    by rewrite <- !app_assoc.
  - rewrite (for_each_write p _ _ _ []) by (simpl; apply lookup_insert_eq).
    simpl. rewrite insert_insert_eq. by rewrite <- !app_assoc.
Qed.

Lemma download_file_sync_outcome (uri : string) (d : path) (ev : env)
    (w : world) :
  download_file_sync uri d ev w
  = fetch_outcome 30 passes_status false uri d ev w.
Proof.
  unfold download_file_sync.
  apply (fetch_generic 30 raise_for_status passes_status
           is_RequestException false); try done.
  - intros s body br ev' w'. unfold raise_for_status. simpl.
    by destruct ((400 <=? s) && (s <? 600))%Z.
  - by intros [].
Qed.

Lemma download_file_async_outcome (session : ClientSession) (uri : string)
    (d : path) (ev : env) (w : world) :
  download_file_async session uri d ev w
  = fetch_outcome 60 passes_status_aio true uri d ev w.
Proof.
  unfold download_file_async.
  apply (fetch_generic 60 raise_for_status_aio passes_status_aio
           is_Exception true); try done.
  - intros s body br ev' w'. unfold raise_for_status_aio. simpl.
    by destruct (400 <=? s)%Z.
  - by intros [].
Qed.

Lemma extractall_unpack (dir : path) (entries : list (string * bytes))
    (ev : env) (w : world) :
  extractall dir entries ev w
  = match unpack dir entries (fs w) with
    | (m, None) => (World m (trace w), Ret tt)
    | (m, Some e) => (World m (trace w), Raise e)
    end.
Proof.
  unfold extractall. revert w.
  induction entries as [|[n data] rest IH]; intros w; simpl.
  - unfold ret. by rewrite world_eta.
  - unfold open_wb. munfold.
    destruct (open_error (fs w) (dir ++ [n])) as [e|] eqn:Hopen; simpl.
    + by rewrite world_eta.
    + rewrite IH. simpl. by rewrite insert_insert_eq.
Qed.

Lemma unpack_error_is_OSError (dir : path) (entries : list (string * bytes))
    (m m' : gmap path node) (e : exn) :
  unpack dir entries m = (m', Some e) → is_OSError e = true.
Proof.
  revert m. induction entries as [|[n data] rest IH]; intros m; simpl.
  - done.
  - destruct (open_error m (dir ++ [n])) as [e'|] eqn:Hopen.
    + intros [= <- <-]. eauto using open_error_is_OSError.
    + apply IH.
Qed.

Lemma unpack_same_dirs (dir : path) (entries : list (string * bytes))
    (m : gmap path node) :
  same_dirs m (unpack dir entries m).1.
Proof.
  revert m. induction entries as [|[n data] rest IH]; intros m; simpl.
  - done.
  - destruct (open_error m (dir ++ [n])) as [e'|] eqn:Hopen; [done|].
    eapply same_dirs_trans; [|apply IH].
    apply same_dirs_insert_file, writable_not_dir.
    by apply open_error_writable.
Qed.

Lemma unpack_keeps_file (dir : path) (entries : list (string * bytes))
    (m : gmap path node) (p : path) (d : bytes) :
  node_at m p = Some (File d) →
  ∃ d', node_at (unpack dir entries m).1 p = Some (File d').
Proof.
  revert m d. induction entries as [|[n data] rest IH]; intros m d Hp; simpl.
  - eauto.
  - destruct (open_error m (dir ++ [n])) as [e'|] eqn:Hopen; [eauto|].
    destruct (decide (dir ++ [n] = p)) as [<-|Hne].
    + eapply IH. rewrite node_at_insert, decide_True; [done..|].
      by destruct dir.
    + eapply IH. rewrite node_at_insert, decide_False; [done..|].
      by destruct dir.
Qed.

Lemma unpack_all_writable (dir : path) (entries : list (string * bytes))
    (m : gmap path node) :
  Forall (λ entry, writable m (dir ++ [entry.1]) = true) entries →
  unpack dir entries m = (unpacked dir entries m, None).
Proof.
  unfold unpacked. revert m.
  induction entries as [|[n data] rest IH]; intros m Hall; simpl; [done|].
  apply Forall_cons in Hall as [Hn Hrest]. simpl in Hn.
  apply open_error_writable in Hn as Hopen. rewrite Hopen.
  apply IH. eapply Forall_impl; [exact Hrest|].
  intros entry Hw. simpl in Hw.
  rewrite (same_dirs_writable m); [done|].
  by apply same_dirs_insert_file, writable_not_dir.
Qed.

Lemma extract_zip_file_outcome (p : path) (ev : env) (w : world) :
  extract_zip_file p ev w = extract_outcome p ev w.
Proof.
  unfold extract_zip_file, extract_outcome, ZipFile, path_exists, os_remove.
  munfold.
  destruct (node_at (fs w) p) as [[data|]|] eqn:Hp; simpl.
  - destruct (zip_decode ev data) as [entries|]; simpl.
    + rewrite extractall_unpack.
      destruct (unpack_keeps_file (parent p) entries _ _ _ Hp) as [d' Hd'].
      destruct (unpack (parent p) entries (fs w)) as [m [e|]] eqn:Hun;
        simpl in *.
      * apply unpack_error_is_OSError in Hun.
        replace (is_Exception e) with true by (by destruct e).
        simpl. rewrite Hd'. simpl. by rewrite Hd'.
      * by rewrite Hd'.
    + rewrite Hp. simpl. by rewrite Hp.
  - rewrite Hp. simpl. by rewrite Hp.
  - by rewrite Hp.
Qed.

(** ** What the leaf operations keep *)

Lemma fetch_outcome_same_dirs (t : Z) (passes : response → bool)
    (catches_os : bool) (uri : string) (d : path) (ev : env) (w : world) :
  same_dirs (fs w) (fs (fetch_outcome t passes catches_os uri d ev w).1).
Proof.
  unfold fetch_outcome.
  destruct (http ev uri) as [|s body br]; [done|].
  destruct (passes _); [|done].
  destruct (open_error _ _) as [e|] eqn:Hopen.
  - by destruct catches_os.
  - apply open_error_writable, writable_not_dir in Hopen.
    destruct (stream_breaks _); by apply same_dirs_insert_file.
Qed.

Lemma extract_outcome_same_dirs (p : path) (ev : env) (w : world) :
  same_dirs (fs w) (fs (extract_outcome p ev w).1).
Proof.
  unfold extract_outcome.
  destruct (node_at (fs w) p) as [[data|]|] eqn:Hp; [|done..].
  assert (is_dir (fs w) p = false) as Hnd by (unfold is_dir; by rewrite Hp).
  destruct (zip_decode ev data) as [entries|].
  - pose proof (unpack_same_dirs (parent p) entries (fs w)) as Hsd.
    destruct (unpack (parent p) entries (fs w)) as [m [e|]]; simpl in *.
    + eapply same_dirs_trans; [exact Hsd|].
      apply same_dirs_delete_file. by rewrite Hsd.
    + eapply same_dirs_trans; [exact Hsd|].
      apply same_dirs_delete_file. by rewrite Hsd.
  - by apply same_dirs_delete_file.
Qed.

(** The unpacker raises only on a directory. *)
Lemma extract_outcome_raise (p : path) (ev : env) (w w' : world) (e : exn) :
  extract_outcome p ev w = (w', Raise e) →
  is_dir (fs w) p = true ∧ e = IsADirectoryError.
Proof.
  unfold extract_outcome, is_dir.
  destruct (node_at (fs w) p) as [[data|]|]; [|by intros [= <- <-]|done].
  destruct (zip_decode ev data) as [entries|]; [|done].
  by destruct (unpack _ _ _) as [m [e'|]].
Qed.

Lemma extract_outcome_not_dir (p : path) (ev : env) (w : world) :
  is_dir (fs w) p = false →
  ∃ w' r, extract_outcome p ev w = (w', Ret r).
Proof.
  intros Hnd. destruct (extract_outcome p ev w) as [w' [r|e]] eqn:Hex.
  - eauto.
  - apply extract_outcome_raise in Hex as [Hd _]. congruence.
Qed.

(** A fetch that hands back a path has just written a file there. *)
Lemma fetch_outcome_path (t : Z) (passes : response → bool)
    (catches_os : bool) (uri : string) (d : path) (ev : env)
    (w w' : world) (p : path) :
  fetch_outcome t passes catches_os uri d ev w = (w', Ret (Some p)) →
  p = path_join d (extract_filename_from_uri uri)
  ∧ writable (fs w) p = true
  ∧ node_at (fs w') p = Some (File (concat (delivered (http ev uri))))
  ∧ ∃ s body, http ev uri = Response s body None.
Proof.
  unfold fetch_outcome.
  destruct (http ev uri) as [|s body br]; [done|].
  destruct (passes _); [|done].
  destruct (open_error _ _) as [e|] eqn:Hopen; [by destruct catches_os|].
  destruct br as [k|]; [done|]. simpl.
  intros [= <- <-]. split; [done|]. split; [by apply open_error_writable|].
  split; [|eauto].
  simpl. rewrite node_at_insert, decide_True; [done..|].
  by apply writable_nonroot in Hopen.
Qed.

(** ** The unpacker *)

Lemma unpacked_snoc (dir : path) (entries : list (string * bytes))
    (entry : string * bytes) (m : gmap path node) :
  unpacked dir (entries ++ [entry]) m
  = <[dir ++ [entry.1] := File entry.2]> (unpacked dir entries m).
Proof. unfold unpacked. by rewrite foldl_app. Qed.

Lemma unpacked_lookup (dir : path) (entries : list (string * bytes))
    (m : gmap path node) (n : string) :
  n ∈ namelist entries →
  ∃ d, (n, d) ∈ entries ∧ unpacked dir entries m !! (dir ++ [n]) = Some (File d).
Proof.
  unfold namelist.
  induction entries as [|[n' d'] entries IH] using rev_ind; [by intros ?%elem_of_nil|].
  rewrite fmap_app, elem_of_app, unpacked_snoc. simpl.
  destruct (decide (n = n')) as [->|Hne].
  - intros _. exists d'. split; [apply elem_of_app; right; apply list_elem_of_singleton; done|].
    apply lookup_insert_eq.
  - intros [Hin|Hin%list_elem_of_singleton]; [|done].
    destruct (IH Hin) as (d & Hd & Hlook). exists d.
    split; [apply elem_of_app; by left|].
    rewrite lookup_insert_ne; [done|].
    intros Heq%app_inv_head. congruence.
Qed.

(** C1. When [extract_zip_file] returns, with the entry names or with
    [None], no file is left at the archive path; the one way it does not
    return is an exception on a path that is a directory. *)
Theorem extract_zip_file_removes_archive (p : path) (ev : env) (w : world) :
  match extract_zip_file p ev w with
  | (w', Ret _) => node_at (fs w') p = None
  | (_, Raise _) => is_dir (fs w) p = true
  end.
Proof.
  rewrite extract_zip_file_outcome.
  destruct (extract_outcome p ev w) as [w' [r|e]] eqn:Hex.
  - revert Hex. unfold extract_outcome.
    destruct (node_at (fs w) p) as [[data|]|] eqn:Hp.
    + assert (p ≠ []) as Hne by (by destruct p).
      destruct (zip_decode ev data) as [entries|].
      * destruct (unpack _ _ _) as [m [e|]]; intros [= <- _]; simpl;
          by rewrite node_at_delete, decide_True.
      * intros [= <- _]; simpl. by rewrite node_at_delete, decide_True.
    + done.
    + by intros [= <- _].
  - by apply extract_outcome_raise in Hex as [? _].
Qed.

(** C10. An archive without entries is unpacked successfully: the result
    is the empty list of names, not [None], and the archive is removed. *)
Theorem extract_empty_archive (p : path) (ev : env) (w : world)
    (data : bytes) :
  node_at (fs w) p = Some (File data) →
  zip_decode ev data = Some [] →
  extract_zip_file p ev w
  = (World (delete p (fs w)) (trace w ++ [Print (Extracted (name p))]),
     Ret (Some [])).
Proof.
  intros Hp Hzip. rewrite extract_zip_file_outcome. unfold extract_outcome.
  by rewrite Hp, Hzip.
Qed.

Lemma extract_empty_archive_witness :
  extract_zip_file ["downloads"; "empty.zip"] headless empty_fetched_world
  = (World {[ ["downloads"] := Dir ]} [Print (Extracted "empty.zip")],
     Ret (Some [])).
Proof.
  rewrite (extract_empty_archive _ _ _ empty_zip); reflexivity.
Defined.




(** ** What a unit leaves in the trace *)

Lemma since_app (w w' : world) (seg : list event) :
  trace w' = trace w ++ seg → since w w' = seg.
Proof. unfold since. intros ->. by rewrite drop_app_length. Qed.

Lemma requests_of_app (l1 l2 : list event) :
  requests_of (l1 ++ l2) = requests_of l1 ++ requests_of l2.
Proof. apply omap_app. Qed.

Lemma writes_of_app (l1 l2 : list event) :
  writes_of (l1 ++ l2) = writes_of l1 ++ writes_of l2.
Proof. apply omap_app. Qed.

Lemma records_of_app (l1 l2 : list event) :
  records_of (l1 ++ l2) = records_of l1 ++ records_of l2.
Proof. apply omap_app. Qed.

Lemma requests_of_written (p : path) (cs : list bytes) :
  requests_of (WriteChunk p <$> cs) = [].
Proof. by induction cs. Qed.

Lemma records_of_written (p : path) (cs : list bytes) :
  records_of (WriteChunk p <$> cs) = [].
Proof. by induction cs. Qed.

Lemma writes_of_written (p : path) (cs : list bytes) :
  writes_of (WriteChunk p <$> cs) = cs.
Proof. induction cs as [|c cs IH]; [done|]. simpl. by f_equal. Qed.

Ltac observe :=
  repeat progress
    (rewrite ?requests_of_app, ?writes_of_app, ?records_of_app,
       ?requests_of_written, ?writes_of_written, ?records_of_written;
     simpl; rewrite ?app_nil_r).

Lemma fetch_outcome_observed (t : Z) (passes : response → bool)
    (catches_os : bool) (uri : string) (d : path) (ev : env) (w : world) :
  ∃ seg,
    trace (fetch_outcome t passes catches_os uri d ev w).1 = trace w ++ seg
    ∧ requests_of seg = [(uri, t)]
    ∧ (writes_of seg = [] ∨ writes_of seg = delivered (http ev uri))
    ∧ match (fetch_outcome t passes catches_os uri d ev w).2 with
      | Ret (Some _) =>
          records_of seg = []
          ∧ writes_of seg = delivered (http ev uri)
          ∧ stream_breaks (http ev uri) = false
      | Ret None => ∃ e, records_of seg = [FailedDownload uri e]
      | Raise _ => records_of seg = [] ∧ catches_os = false
      end.
Proof.
  unfold fetch_outcome.
  destruct (http ev uri) as [|s body br]; simpl.
  { eexists. split; [done|]. observe. eauto. }
  destruct (passes _); simpl;
    [|eexists; split; [done|]; observe; eauto].
  destruct (open_error _ _) as [e|]; simpl.
  { destruct catches_os; simpl; eexists; (split; [done|]); observe; eauto. }
  destruct br as [k|]; simpl; eexists; (split; [done|]); observe; eauto 10.
Qed.

Lemma fetch_outcome_raise (t : Z) (passes : response → bool)
    (catches_os : bool) (uri : string) (d : path) (ev : env)
    (w w' : world) (e : exn) :
  fetch_outcome t passes catches_os uri d ev w = (w', Raise e) →
  passes (http ev uri) = true
  ∧ open_error (fs w) (path_join d (extract_filename_from_uri uri)) = Some e
  ∧ catches_os = false
  ∧ fs w' = fs w.
Proof.
  unfold fetch_outcome.
  destruct (http ev uri) as [|s body br]; [done|].
  destruct (passes _); [|done].
  destruct (open_error _ _) as [e'|]; [|by destruct (stream_breaks _)].
  destruct catches_os; [done|]. by intros [= <- <-].
Qed.

(** A failed [open] in the blocking fetcher: the exception leaves the
    fetcher. *)
Lemma fetch_outcome_blocked (t : Z) (passes : response → bool) (uri : string)
    (d : path) (ev : env) (w : world) :
  passes Unreachable = false →
  passes (http ev uri) = true →
  writable (fs w) (path_join d (extract_filename_from_uri uri)) = false →
  ∃ e,
    is_OSError e = true
    ∧ fetch_outcome t passes false uri d ev w
      = (World (fs w)
           (trace w ++ [Print (Downloading (extract_filename_from_uri uri));
                        HttpGet uri t]),
         Raise e).
Proof.
  intros Hun Hpass Hw. unfold fetch_outcome.
  destruct (open_error_not_writable _ _ Hw) as (e & -> & He).
  destruct (http ev uri) as [|s body br]; [congruence|].
  rewrite Hpass. eauto.
Qed.

Lemma extract_outcome_observed (p : path) (ev : env) (w : world) :
  ∃ m,
    trace (extract_outcome p ev w).1 = trace w ++ [Print m]
    ∧ match (extract_outcome p ev w).2 with
      | Ret (Some _) => m = Extracted (name p)
      | _ => ∃ e, m = FailedExtract p e
      end.
Proof.
  unfold extract_outcome.
  destruct (node_at (fs w) p) as [[data|]|]; simpl; eauto.
  destruct (zip_decode ev data) as [entries|]; simpl; eauto.
  destruct (unpack _ _ _) as [m [e|]]; simpl; eauto.
Qed.

Lemma download_and_extract_sync_outcome (uri : string) (d : path) (ev : env)
    (w : world) :
  download_and_extract_sync uri d ev w
  = match fetch_outcome 30 passes_status false uri d ev w with
    | (w1, Ret (Some p)) =>
        match extract_outcome p ev w1 with
        | (w2, Ret _) => (w2, Ret tt)
        | (w2, Raise e) => (w2, Raise e)
        end
    | (w1, Ret None) => (w1, Ret tt)
    | (w1, Raise e) => (w1, Raise e)
    end.
Proof.
  unfold download_and_extract_sync, bind.
  rewrite download_file_sync_outcome.
  destruct (fetch_outcome _ _ _ _ _ _ _) as [w1 [[p|]|e]]; [|done..].
  rewrite extract_zip_file_outcome.
  by destruct (extract_outcome _ _ _) as [w2 [r|e]].
Qed.

(** The path a fetch hands over is a file, so the unpacker returns. *)
Lemma fetched_then_extract (t : Z) (passes : response → bool)
    (catches_os : bool) (uri : string) (d : path) (ev : env)
    (w w1 : world) (p : path) :
  fetch_outcome t passes catches_os uri d ev w = (w1, Ret (Some p)) →
  ∃ w2 r, extract_outcome p ev w1 = (w2, Ret r).
Proof.
  intros (_ & _ & Hfile & _)%fetch_outcome_path.
  apply extract_outcome_not_dir. unfold is_dir. by rewrite Hfile.
Qed.

(** A unit whose target file can be opened, or whose request fails
    before the file is opened, runs to its end and leaves one record. *)
Lemma unit_sync_spec (uri : string) (d : path) (ev : env) (w : world) :
  passes_status (http ev uri) = false
  ∨ writable (fs w) (path_join d (extract_filename_from_uri uri)) = true →
  ∃ w' seg m,
    download_and_extract_sync uri d ev w = (w', Ret tt)
    ∧ same_dirs (fs w) (fs w')
    ∧ trace w' = trace w ++ seg
    ∧ requests_of seg = [(uri, 30)]
    ∧ records_of seg = [m]
    ∧ record_for d uri m.
Proof.
  intros Hok. rewrite download_and_extract_sync_outcome.
  pose proof (fetch_outcome_observed 30 passes_status false uri d ev w)
    as (seg & Htr & Hreq & _ & Hrec).
  pose proof (fetch_outcome_same_dirs 30 passes_status false uri d ev w)
    as Hsd.
  destruct (fetch_outcome _ _ _ _ _ _ _) as [w1 [[p|]|e]] eqn:Hf;
    simpl in *.
  - destruct (fetched_then_extract _ _ _ _ _ _ _ _ _ Hf) as (w2 & r & Hex).
    pose proof (extract_outcome_observed p ev w1) as (m & Htr2 & Hm).
    pose proof (extract_outcome_same_dirs p ev w1) as Hsd2.
    apply fetch_outcome_path in Hf as (-> & _ & _ & _).
    rewrite Hex in *. simpl in *. destruct Hrec as (Hrec & _ & _).
    exists w2, (seg ++ [Print m]), m.
    split; [done|]. split; [by eapply same_dirs_trans|].
    split; [by rewrite Htr2, Htr, <- app_assoc|].
    split; [observe; by destruct m|].
    split.
    + rewrite records_of_app, Hrec. simpl.
      destruct r as [names|]; [by subst|]. by destruct Hm as [? ->].
    + unfold record_for. destruct r as [names|]; [by left|].
      right; right. done.
  - destruct Hrec as [e Hrec].
    exists w1, seg, (FailedDownload uri e). repeat split; try done.
    unfold record_for. eauto.
  - apply fetch_outcome_raise in Hf as (Hpass & Hopen & _).
    destruct Hok as [Hno|Hw]; [congruence|].
    apply open_error_writable in Hw. congruence.
Qed.

(** ** The fetcher *)

Lemma delivered_bound (r : response) :
  Forall (λ c, (length c ≤ chunk_size)%nat) (delivered r).
Proof.
  destruct r as [|s body [k|]]; simpl;
    [constructor | apply Forall_take |]; apply chunked_bound.
Qed.

Lemma delivered_full (r : response) (i : nat) (c : bytes) :
  delivered r !! i = Some c → (S i < length (delivered r))%nat →
  length c = chunk_size.
Proof.
  destruct r as [|s body [k|]]; simpl; [done| |].
  - intros [Hc Hi]%lookup_take_Some Hlen. rewrite length_take in Hlen.
    eapply chunked_aux_full; [exact Hc|]. unfold chunked in Hlen. lia.
  - apply chunked_aux_full.
Qed.

Lemma fetch_outcome_streamed (t : Z) (passes : response → bool)
    (catches_os : bool) (uri : string) (d : path) (ev : env) (w : world) :
  streamed ev uri w (fetch_outcome t passes catches_os uri d ev w).
Proof.
  pose proof (fetch_outcome_observed t passes catches_os uri d ev w)
    as (seg & Htr & _ & Hw & Hres).
  unfold streamed. rewrite (since_app _ _ _ Htr).
  assert (Z.of_nat chunk_size = 8192%Z) as Hsize by done.
  split; [|split].
  - destruct Hw as [-> | ->]; [constructor|].
    eapply Forall_impl; [apply delivered_bound|]. simpl. lia.
  - intros i c Hc Hlen. rewrite <- Hsize. f_equal.
    destruct Hw as [Hw | Hw]; rewrite Hw in *; [done|].
    by eapply delivered_full.
  - intros p Hp.
    destruct (fetch_outcome _ _ _ _ _ _ _) as [w' r] eqn:Hf.
    simpl in *. subst r.
    destruct Hres as (_ & -> & Hbr).
    apply fetch_outcome_path in Hf as (_ & _ & Hfile & s & body & Hr).
    rewrite Hr in *. exists s, body. simpl in *.
    by rewrite chunked_concat in *.
Qed.


(** C4, as stated, fails: a status outside 2xx that is not an error
    status (here 300) passes [raise_for_status]; the fetcher writes the
    (empty) body, returns the path, and extraction is attempted. *)
Lemma fetch_status_300_returns_path :
  http headless "http://data.test/choices.zip" = Response 300 [] None
  ∧ (download_file_sync "http://data.test/choices.zip" ["downloads"]
       headless ready_world).2
    = Ret (Some ["downloads"; "choices.zip"])
  ∧ records_of
      (trace (download_and_extract_sync "http://data.test/choices.zip"
                ["downloads"] headless ready_world).1)
    = [FailedExtract ["downloads"; "choices.zip"] BadZipFile].
Proof. repeat split; vm_compute; reflexivity. Qed.

(** C4, amended. When the server does not answer, answers with a 4xx or
    5xx status, or breaks the stream of the body, [download_file_sync]
    returns [None] and reports the failure, nothing is done for the
    locator after the fetch (no extraction), and in the first two cases
    the file system is as it was: no file, empty or not, is left. *)
Theorem fetch_failure_record (uri : string) (d : path) (ev : env)
    (w : world) :
  http ev uri = Unreachable
  ∨ (∃ s body br,
       http ev uri = Response s body br ∧ (400 ≤ s < 600)%Z)
  ∨ (∃ s body k,
       http ev uri = Response s body (Some k)
       ∧ writable (fs w) (path_join d (extract_filename_from_uri uri))
         = true) →
  ∃ w' e,
    download_file_sync uri d ev w = (w', Ret None)
    ∧ download_and_extract_sync uri d ev w = (w', Ret tt)
    ∧ records_of (since w w') = [FailedDownload uri e]
    ∧ (passes_status (http ev uri) = false → fs w' = fs w).
Proof.
  intros Hfail.
  assert (∃ w', fetch_outcome 30 passes_status false uri d ev w
                = (w', Ret None)
                ∧ (passes_status (http ev uri) = false → fs w' = fs w))
    as (w' & Hf & Hfs).
  { unfold fetch_outcome.
    destruct Hfail as [-> | [(s & body & br & -> & Hs)
                            | (s & body & k & -> & Hw)]].
    - eauto.
    - simpl. replace ((400 <=? s)%Z && (s <? 600)%Z) with true by lia.
      simpl. eauto.
    - simpl. destruct (negb _) eqn:Hpass; [|eauto].
      apply open_error_writable in Hw as ->. simpl. by eexists. }
  pose proof (fetch_outcome_observed 30 passes_status false uri d ev w)
    as (seg & Htr & _ & _ & Hrec).
  rewrite Hf in Htr, Hrec. simpl in *. destruct Hrec as [e Hrec].
  exists w', e. rewrite download_and_extract_sync_outcome,
    download_file_sync_outcome, Hf, (since_app _ _ _ Htr).
  done.
Qed.

Lemma fetch_failure_record_witness :
  ∃ w' e,
    download_file_sync "http://data.test/missing.zip" ["downloads"]
      headless ready_world = (w', Ret None)
    ∧ download_and_extract_sync "http://data.test/missing.zip" ["downloads"]
        headless ready_world = (w', Ret tt)
    ∧ records_of (since ready_world w')
      = [FailedDownload "http://data.test/missing.zip" e]
    ∧ (passes_status (http headless "http://data.test/missing.zip") = false
       → fs w' = fs ready_world).
Proof.
  apply fetch_failure_record. right. left.
  exists 404%Z, [], None. split; [reflexivity | lia].
Defined.

(** A stream that breaks before its first chunk: the fetcher returns
    [None] and the empty file it opened stays where it is. *)
Example broken_stream_leaves_partial_file :
  let out :=
    download_file_sync "http://data.test/broken.zip" ["downloads"] headless
      ready_world in
  out.2 = Ret None
  ∧ fs out.1 !! ["downloads"; "broken.zip"] = Some (File [])
  ∧ records_of (trace out.1)
    = [FailedDownload "http://data.test/broken.zip" TransportError].
Proof. repeat split; vm_compute; reflexivity. Qed.

(** ** The unit of work *)

(** C2, as stated, fails: a fetch that fails in [open] is not contained.
    The locator [http://data.test/] has an empty last segment, so its
    target is the [downloads] directory itself; the [IsADirectoryError]
    leaves [download_and_extract_sync] and ends [main_sync] before the
    next locator is asked for. *)
Lemma directory_locator_aborts_run :
  (download_and_extract_sync "http://data.test/" ["downloads"] headless
     ready_world).2
    = Raise IsADirectoryError
  ∧ (main_sync ["http://data.test/"; "http://data.test/sample.zip"]
       headless empty_world).2
    = Raise IsADirectoryError
  ∧ requests_of
      (trace (main_sync ["http://data.test/"; "http://data.test/sample.zip"]
                headless empty_world).1)
    = [("http://data.test/", 30%Z)].
Proof. repeat split; vm_compute; reflexivity. Qed.

(** C2, amended. A locator whose fetch fails with a transport or HTTP
    error (the fetcher returns [None]) or whose extraction fails (the
    unpacker does not return entry names) makes
    [download_and_extract_sync] return normally, with the failure
    printed, and the loop of the sequential orchestrator goes on with the
    rest of the list. *)
Theorem sync_failure_is_contained (uri : string) (d : path)
    (rest : list string) (ev : env) (w : world) :
  fetch_failed uri d ev w ∨ extract_failed uri d ev w →
  ∃ w' m,
    download_and_extract_sync uri d ev w = (w', Ret tt)
    ∧ records_of (since w w') = [m]
    ∧ is_failure m = true
    ∧ for_each (uri :: rest) (λ u, download_and_extract_sync u d) ev w
      = for_each rest (λ u, download_and_extract_sync u d) ev w'.
Proof.
  intros Hfail.
  assert (∃ w' m, download_and_extract_sync uri d ev w = (w', Ret tt)
                  ∧ records_of (since w w') = [m] ∧ is_failure m = true)
    as (w' & m & Hrun & Hrec & Hm).
  { rewrite download_and_extract_sync_outcome.
    pose proof (fetch_outcome_observed 30 passes_status false uri d ev w)
      as (seg & Htr & _ & _ & Hrec).
    destruct Hfail as [[w1 Hf] | (w1 & p & Hf & Hex)];
      rewrite download_file_sync_outcome in Hf; rewrite Hf in *;
      simpl in *.
    - destruct Hrec as [e Hrec]. exists w1, (FailedDownload uri e).
      by rewrite (since_app _ _ _ Htr).
    - destruct (fetched_then_extract _ _ _ _ _ _ _ _ _ Hf) as (w2 & r & Hr).
      pose proof (extract_outcome_observed p ev w1) as (m & Htr2 & Hm).
      rewrite extract_zip_file_outcome in Hex.
      rewrite Hr in *. simpl in *.
      destruct r as [names|]; [by destruct (Hex names)|].
      destruct Hm as [e ->]. destruct Hrec as (Hrec & _).
      exists w2, (FailedExtract p e). split; [done|].
      rewrite (since_app w w2 (seg ++ [Print (FailedExtract p e)])).
      + by rewrite records_of_app, Hrec.
      + by rewrite Htr2, Htr, <- app_assoc. }
  exists w', m. repeat split; try done.
  simpl. unfold bind at 1. by rewrite Hrun.
Qed.

Lemma sync_failure_is_contained_witness :
  ∃ w' m,
    download_and_extract_sync "http://data.test/missing.zip" ["downloads"]
      headless ready_world = (w', Ret tt)
    ∧ records_of (since ready_world w') = [m]
    ∧ is_failure m = true
    ∧ for_each ["http://data.test/missing.zip"; "http://data.test/sample.zip"]
        (λ u, download_and_extract_sync u ["downloads"]) headless ready_world
      = for_each ["http://data.test/sample.zip"]
          (λ u, download_and_extract_sync u ["downloads"]) headless w'.
Proof.
  apply sync_failure_is_contained. left.
  eexists. vm_compute. reflexivity.
Defined.

(** ** The sequential orchestrator *)

Lemma unobstructed_same_dirs (ev : env) (m m' : gmap path node) (d : path)
    (uri : string) :
  same_dirs m m' → unobstructed ev m d uri → unobstructed ev m' d uri.
Proof.
  intros Hsd [Hno|Hw]; [by left|right].
  by rewrite (same_dirs_writable m).
Qed.

Lemma sync_loop_spec (uris : list string) (d : path) (ev : env) (w : world) :
  Forall (unobstructed ev (fs w) d) uris →
  ∃ w' seg,
    for_each uris (λ u, download_and_extract_sync u d) ev w = (w', Ret tt)
    ∧ same_dirs (fs w) (fs w')
    ∧ trace w' = trace w ++ seg
    ∧ requests_of seg = (λ u, (u, 30%Z)) <$> uris
    ∧ Forall2 (record_for d) uris (records_of seg).
Proof.
  revert w. induction uris as [|uri rest IH]; intros w Hall.
  - exists w, []. simpl. rewrite app_nil_r. repeat split; done.
  - apply Forall_cons in Hall as [Huri Hrest].
    destruct (unit_sync_spec uri d ev w Huri)
      as (w1 & seg1 & m & Hrun & Hsd & Htr & Hreq & Hrec & Hm).
    destruct (IH w1) as (w2 & seg2 & Hrun2 & Hsd2 & Htr2 & Hreq2 & Hrec2).
    { eapply Forall_impl; [exact Hrest|].
      intros u. by apply unobstructed_same_dirs. }
    exists w2, (seg1 ++ seg2). simpl. unfold bind at 1. rewrite Hrun.
    split; [done|]. split; [by eapply same_dirs_trans|].
    split; [by rewrite Htr2, Htr, <- app_assoc|].
    split; [by rewrite requests_of_app, Hreq, Hreq2|].
    rewrite records_of_app, Hrec. by constructor.
Qed.

Lemma create_downloads_directory_ok (ev : env) (w : world) :
  is_file (fs w) ["downloads"] = false →
  create_downloads_directory ev w
  = (World (<[["downloads"] := Dir]> (fs w)) (trace w), Ret ["downloads"]).
Proof.
  unfold is_file, create_downloads_directory, mkdir_exist_ok. munfold.
  destruct (fs w !! ["downloads"]) as [[data|]|] eqn:Hd; [done| |done].
  intros _. by rewrite insert_id, world_eta.
Qed.

Lemma create_downloads_directory_blocked (ev : env) (w : world) :
  is_file (fs w) ["downloads"] = true →
  create_downloads_directory ev w = (w, Raise FileExistsError).
Proof.
  unfold is_file, create_downloads_directory, mkdir_exist_ok. munfold.
  by destruct (fs w !! ["downloads"]) as [[data|]|].
Qed.

Lemma record_for_one_kind (d : path) (uri : string) (m : message) :
  record_for d uri m → xorb (is_success m) (is_failure m) = true.
Proof. by intros [-> | [[e ->] | [e ->]]]. Qed.




(** ** Units under a scheduler *)

Lemma work_of_app (us vs : list (nat * stage)) :
  work_of (us ++ vs) = (work_of us + work_of vs)%nat.
Proof. induction us as [|u us IH]; simpl; lia. Qed.

Lemma uris_of_app (us vs : list (nat * stage)) :
  uris_of (us ++ vs) = uris_of us ++ uris_of vs.
Proof.
  induction us as [|u us IH]; simpl; [done|]. by rewrite IH, app_assoc.
Qed.

Lemma gets_app (l1 l2 : list event) : gets (l1 ++ l2) = gets l1 ++ gets l2.
Proof. unfold gets. by rewrite requests_of_app, fmap_app. Qed.

Lemma units_start_queued (mw : option nat) (pl : pool) :
  units (start_queued mw pl) ≡ₚ units pl.
Proof.
  unfold units, start_queued. simpl.
  set (k := match mw with Some k => _ | None => _ end).
  rewrite <- (take_drop k (queue pl)) at 3. solve_Permutation.
Qed.

Lemma work_of_perm (us vs : list (nat * stage)) :
  us ≡ₚ vs → work_of us = work_of vs.
Proof. induction 1; simpl; lia. Qed.

Lemma uris_of_perm (us vs : list (nat * stage)) :
  us ≡ₚ vs → uris_of us ≡ₚ uris_of vs.
Proof.
  induction 1 as [|u us vs _ IH|u v us|us vs ws _ IH1 _ IH2]; simpl.
  - done.
  - by rewrite IH.
  - solve_Permutation.
  - by rewrite IH1.
Qed.

Lemma work_of_zero (us : list (nat * stage)) : work_of us = 0%nat → us = [].
Proof. destruct us as [|[id [uri|p]] us]; simpl; [done|lia..]. Qed.

(** With a worker to spare, an idle pool has an empty queue. *)
Lemma start_queued_idle (mw : option nat) (pl : pool) :
  mw ≠ Some 0%nat →
  running (start_queued mw pl) = [] → queue (start_queued mw pl) = [].
Proof.
  unfold start_queued. simpl. intros Hmw [Hrun Htake]%app_eq_nil.
  rewrite Hrun in *. simpl in *.
  destruct mw as [k|].
  - destruct k as [|k]; [done|]. rewrite Nat.sub_0_r in *.
    destruct (queue pl); [done|discriminate].
  - by rewrite drop_all.
Qed.

Ltac pool_simpl :=
  repeat progress (rewrite ?work_of_app, ?uris_of_app, ?fmap_app; simpl).

Section scheduler.
Variable max_workers : option nat.
Variable fail_fast : bool.
Variable step : stage → M (option stage).

Hypothesis workers : max_workers ≠ Some 0%nat.

(** A fetch asks for its uri once, an unpacking asks for nothing. *)
Hypothesis step_gets : ∀ s ev w w' r,
  step s ev w = (w', r) →
  ∃ seg, trace w' = trace w ++ seg ∧ gets seg = stage_uris s.

(** A unit that goes on has its fetch behind it. *)
Hypothesis step_next : ∀ s ev w w' s',
  step s ev w = (w', Ret (Some s')) →
  (stage_work s' < stage_work s)%nat ∧ stage_uris s' = [].

Lemma unit_step_spec (choice : nat) (pl pl' : pool) (ev : env)
    (w w' : world) :
  (running pl = [] → queue pl = []) →
  unit_step fail_fast step choice pl ev w = (w', Ret pl') →
  ((pool_work pl' < pool_work pl)%nat
   ∨ (quiescent pl' ∧ pool_work pl = 0%nat))
  ∧ (units pl').*1 ++ (finished pl').*1
    ≡ₚ (units pl).*1 ++ (finished pl).*1
  ∧ ∃ seg,
      trace w' = trace w ++ seg
      ∧ gets seg ++ pending_uris pl' ≡ₚ pending_uris pl.
Proof.
  intros Hidle. unfold pool_work, pending_uris, unit_step.
  destruct (running pl !! (choice mod length (running pl))%nat)
    as [[id s]|] eqn:Hlook.
  - apply list_elem_of_split_length in Hlook as (l1 & l2 & Hrun & Hi).
    rewrite Hi.
    destruct (step s ev w) as [w1 r] eqn:Hstep.
    destruct (step_gets _ _ _ _ _ Hstep) as (seg & Htr & Hseg).
    assert (0 < stage_work s)%nat as Hpos by (by destruct s; simpl; lia).
    destruct r as [[s'|]|e].
    + destruct (step_next _ _ _ _ _ Hstep) as [Hless Hnone].
      intros [= <- <-]. unfold units. simpl.
      rewrite Hrun, insert_app_r_alt, Nat.sub_diag by done. simpl.
      pool_simpl.
      split; [left; lia|]. split; [done|].
      exists seg. split; [done|]. rewrite Hseg, Hnone. solve_Permutation.
    + intros [= <- <-]. unfold units. simpl.
      rewrite Hrun, delete_middle.
      pool_simpl.
      split; [left; lia|]. split; [solve_Permutation|].
      exists seg. split; [done|]. rewrite Hseg. solve_Permutation.
    + destruct fail_fast; [done|].
      intros [= <- <-]. unfold units. simpl.
      rewrite Hrun, delete_middle.
      pool_simpl.
      split; [left; lia|]. split; [solve_Permutation|].
      exists seg. split; [done|]. rewrite Hseg. solve_Permutation.
  - assert (running pl = []) as Hrun.
    { destruct (running pl) as [|u us] eqn:Hr; [done|].
      apply lookup_ge_None in Hlook.
      pose proof (Nat.mod_upper_bound choice (length (u :: us))) as Hb.
      simpl in *. lia. }
    intros [= <- <-]. unfold units. rewrite Hrun, (Hidle Hrun). simpl.
    split; [right; split; [split|]; auto|]. split; [done|].
    exists []. by rewrite app_nil_r.
Qed.

Lemma round_spec (choice : nat) (pl pl' : pool) (ev : env) (w w' : world) :
  unit_step fail_fast step choice (start_queued max_workers pl) ev w
    = (w', Ret pl') →
  ((pool_work pl' < pool_work pl)%nat
   ∨ (quiescent pl' ∧ pool_work pl = 0%nat))
  ∧ (units pl').*1 ++ (finished pl').*1
    ≡ₚ (units pl).*1 ++ (finished pl).*1
  ∧ ∃ seg,
      trace w' = trace w ++ seg
      ∧ gets seg ++ pending_uris pl' ≡ₚ pending_uris pl.
Proof.
  intros Hstep.
  pose proof (units_start_queued max_workers pl) as Hunits.
  apply unit_step_spec in Hstep
    as (Hless & Hids & seg & Htr & Hget);
    [|by apply start_queued_idle].
  unfold pool_work, pending_uris in *.
  rewrite (work_of_perm _ _ Hunits) in Hless.
  split; [done|]. split; [by rewrite Hids, Hunits|].
  exists seg. split; [done|]. by rewrite Hget, (uris_of_perm _ _ Hunits).
Qed.

(** With fuel for every action still to take, a run that ends without
    an exception ends with every unit done, each exactly once, and
    with one GET for each uri that was pending. *)
Lemma run_units_spec (fuel t : nat) (pl pl' : pool) (ev : env)
    (w w' : world) :
  run_units max_workers fail_fast step fuel t pl ev w = (w', Ret pl') →
  (pool_work pl ≤ fuel)%nat →
  (pool_work pl' = 0%nat)
  ∧ (units pl').*1 ++ (finished pl').*1
    ≡ₚ (units pl).*1 ++ (finished pl).*1
  ∧ ∃ seg,
      trace w' = trace w ++ seg
      ∧ gets seg ++ pending_uris pl' ≡ₚ pending_uris pl.
Proof.
  revert t pl w. induction fuel as [|fuel IH]; intros t pl w; simpl.
  - intros [= <- <-] Hwork. split; [lia|]. split; [done|].
    exists []. by rewrite app_nil_r.
  - unfold bind, ask.
    destruct (unit_step _ _ _ _ _ _) as [w1 [pl1|e]] eqn:Hround; [|done].
    intros Hrun Hwork.
    destruct (round_spec _ _ _ _ _ _ Hround)
      as (Hless & Hids & seg1 & Htr1 & Hget1).
    destruct (IH _ _ _ Hrun) as (Hdone & Hids2 & seg2 & Htr2 & Hget2).
    { destruct Hless as [Hless|[[Hq Hr] _]]; [lia|].
      unfold pool_work, units. rewrite Hq, Hr. simpl. lia. }
    split; [done|]. split; [by rewrite Hids2|].
    exists (seg1 ++ seg2). split; [by rewrite Htr2, Htr1, <- app_assoc|].
    by rewrite gets_app, <- Hget1, <- Hget2, app_assoc.
Qed.
End scheduler.

(** Without fail-fast a run never ends with an exception: what a unit
    raises stays in its future. *)
Lemma run_units_returns (mw : option nat) (step : stage → M (option stage))
    (fuel t : nat) (pl : pool) (ev : env) (w : world) :
  ∃ w' pl', run_units mw false step fuel t pl ev w = (w', Ret pl').
Proof.
  revert t pl w. induction fuel as [|fuel IH]; intros t pl w; simpl.
  - by eexists _, _.
  - unfold bind, ask, unit_step.
    destruct (running _ !! _) as [[id s]|]; [|apply IH].
    destruct (step s ev w) as [w1 [[s'|]|e]]; apply IH.
Qed.

Section safe_steps.
Variable max_workers : option nat.
Variable step : stage → M (option stage).

(** A step on a safe stage returns, keeps the directories, and hands
    on a safe stage. *)
Hypothesis step_safe : ∀ s ev w,
  stage_safe (fs w) s →
  ∃ w' o,
    step s ev w = (w', Ret o)
    ∧ same_dirs (fs w) (fs w')
    ∧ ∀ s', o = Some s' → stage_safe (fs w') s'.

Lemma stage_safe_same_dirs (m m' : gmap path node) (s : stage) :
  same_dirs m m' → stage_safe m s → stage_safe m' s.
Proof. intros Hsd. destruct s as [uri|p]; simpl; [done|]. by rewrite Hsd. Qed.

(** Under fail-fast, safe units never trip it: the run returns, and
    every future holds a normal result. *)
Lemma run_units_safe (fuel t : nat) (pl : pool) (ev : env) (w : world) :
  pool_safe (fs w) pl →
  Forall (λ f, f.2 = Ret tt) (finished pl) →
  ∃ w' pl',
    run_units max_workers true step fuel t pl ev w = (w', Ret pl')
    ∧ Forall (λ f, f.2 = Ret tt) (finished pl').
Proof.
  revert t pl w. induction fuel as [|fuel IH]; intros t pl w Hsafe Hfin;
    simpl.
  - by eexists _, _.
  - unfold bind, ask.
    assert (pool_safe (fs w) (start_queued max_workers pl)) as Hsafe0.
    { unfold pool_safe. by rewrite units_start_queued. }
    assert (finished (start_queued max_workers pl) = finished pl) as Hfin0
      by done.
    set (pl0 := start_queued max_workers pl) in *. clearbody pl0.
    unfold unit_step.
    destruct (running pl0 !! _) as [[id s]|] eqn:Hlook.
    + apply list_elem_of_split_length in Hlook as (l1 & l2 & Hrun & Hi).
      rewrite Hi. unfold pool_safe, units in Hsafe0. rewrite Hrun in Hsafe0.
      apply Forall_app in Hsafe0 as [Hq Hr].
      apply Forall_app in Hr as [H1 H2].
      apply Forall_cons in H2 as [Hs H2]. simpl in Hs.
      destruct (step_safe s ev w Hs) as (w1 & o & -> & Hsd & Ho).
      assert (∀ us : list (nat * stage),
                Forall (λ u, stage_safe (fs w) u.2) us →
                Forall (λ u, stage_safe (fs w1) u.2) us) as Hkeep.
      { intros us Hus. eapply Forall_impl; [exact Hus|].
        intros u. by apply stage_safe_same_dirs. }
      destruct o as [s'|]; apply IH; simpl.
      * unfold pool_safe, units. simpl.
        rewrite Hrun, insert_app_r_alt, Nat.sub_diag by done. simpl.
        rewrite !Forall_app, Forall_cons. simpl. eauto 10.
      * by rewrite Hfin0.
      * unfold pool_safe, units. simpl. rewrite Hrun, delete_middle.
        rewrite !Forall_app. auto.
      * rewrite Hfin0, Forall_app. split; [done|]. by constructor.
    + apply IH; [done | by rewrite Hfin0].
Qed.
End safe_steps.

(** *** The two kinds of unit *)

(** The actions of a unit, taken one after the other, are the function
    of the source. *)
Lemma step_sync_alone (uri : string) (d : path) (ev : env) (w : world) :
  run_alone (step_sync d) uri ev w = download_and_extract_sync uri d ev w.
Proof.
  unfold run_alone, download_and_extract_sync. simpl. unfold bind, ret.
  destruct (download_file_sync uri d ev w) as [w1 [[p|]|e]]; simpl; [|done..].
  unfold bind, ret. by destruct (extract_zip_file p ev w1) as [w2 [r|e]].
Qed.

Lemma step_async_alone (session : ClientSession) (uri : string) (d : path)
    (ev : env) (w : world) :
  run_alone (step_async session d) uri ev w
  = download_and_extract_async session uri d ev w.
Proof.
  unfold run_alone, download_and_extract_async. simpl. unfold bind, ret.
  destruct (download_file_async session uri d ev w) as [w1 [[p|]|e]];
    simpl; [|done..].
  unfold bind, ret. by destruct (extract_zip_file p ev w1) as [w2 [r|e]].
Qed.

Lemma step_sync_gets (d : path) (s : stage) (ev : env) (w w' : world)
    (r : result (option stage)) :
  step_sync d s ev w = (w', r) →
  ∃ seg, trace w' = trace w ++ seg ∧ gets seg = stage_uris s.
Proof.
  destruct s as [uri|p]; simpl; unfold bind, ret.
  - rewrite download_file_sync_outcome.
    pose proof (fetch_outcome_observed 30 passes_status false uri d ev w)
      as (seg & Htr & Hreq & _).
    destruct (fetch_outcome _ _ _ _ _ _ _) as [w1 [o|e]];
      intros [= <- _]; exists seg; unfold gets; by rewrite Hreq.
  - rewrite extract_zip_file_outcome.
    pose proof (extract_outcome_observed p ev w) as (m & Htr & _).
    destruct (extract_outcome _ _ _) as [w1 [o|e]];
      intros [= <- _]; by exists [Print m].
Qed.

Lemma step_sync_next (d : path) (s : stage) (ev : env) (w w' : world)
    (s' : stage) :
  step_sync d s ev w = (w', Ret (Some s')) →
  (stage_work s' < stage_work s)%nat ∧ stage_uris s' = [].
Proof.
  destruct s as [uri|p]; simpl; unfold bind, ret.
  - destruct (download_file_sync _ _ _ _) as [w1 [[p|]|e]]; [|done..].
    intros [= _ <-]. simpl. split; [lia|done].
  - by destruct (extract_zip_file _ _ _) as [w1 [o|e]].
Qed.

Lemma step_async_gets (session : ClientSession) (d : path) (s : stage)
    (ev : env) (w w' : world) (r : result (option stage)) :
  step_async session d s ev w = (w', r) →
  ∃ seg, trace w' = trace w ++ seg ∧ gets seg = stage_uris s.
Proof.
  destruct s as [uri|p]; simpl; unfold bind, ret.
  - rewrite download_file_async_outcome.
    pose proof (fetch_outcome_observed 60 passes_status_aio true uri d ev w)
      as (seg & Htr & Hreq & _).
    destruct (fetch_outcome _ _ _ _ _ _ _) as [w1 [o|e]];
      intros [= <- _]; exists seg; unfold gets; by rewrite Hreq.
  - rewrite extract_zip_file_outcome.
    pose proof (extract_outcome_observed p ev w) as (m & Htr & _).
    destruct (extract_outcome _ _ _) as [w1 [o|e]];
      intros [= <- _]; by exists [Print m].
Qed.

Lemma step_async_next (session : ClientSession) (d : path) (s : stage)
    (ev : env) (w w' : world) (s' : stage) :
  step_async session d s ev w = (w', Ret (Some s')) →
  (stage_work s' < stage_work s)%nat ∧ stage_uris s' = [].
Proof.
  destruct s as [uri|p]; simpl; unfold bind, ret.
  - destruct (download_file_async _ _ _ _ _) as [w1 [[p|]|e]]; [|done..].
    intros [= _ <-]. simpl. split; [lia|done].
  - by destruct (extract_zip_file _ _ _) as [w1 [o|e]].
Qed.

(** The asyncio fetcher catches everything, and the archive it hands to
    the unpacker is a file: no action of an asyncio unit raises. *)
Lemma step_async_safe (session : ClientSession) (d : path) (s : stage)
    (ev : env) (w : world) :
  stage_safe (fs w) s →
  ∃ w' o,
    step_async session d s ev w = (w', Ret o)
    ∧ same_dirs (fs w) (fs w')
    ∧ ∀ s', o = Some s' → stage_safe (fs w') s'.
Proof.
  destruct s as [uri|p]; simpl; unfold bind, ret.
  - intros _. rewrite download_file_async_outcome.
    pose proof (fetch_outcome_same_dirs 60 passes_status_aio true uri d ev w)
      as Hsd.
    destruct (fetch_outcome _ _ _ _ _ _ _) as [w1 [[p|]|e]] eqn:Hf;
      simpl in *.
    + eexists _, _. split; [done|]. split; [done|].
      intros s' [= <-]. simpl.
      apply fetch_outcome_path in Hf as (_ & _ & Hfile & _).
      unfold is_dir. by rewrite Hfile.
    + eexists _, _. split; [done|]. by split.
    + by apply fetch_outcome_raise in Hf as (_ & _ & ? & _).
  - intros Hp. rewrite extract_zip_file_outcome.
    pose proof (extract_outcome_same_dirs p ev w) as Hsd.
    destruct (extract_outcome_not_dir p ev w Hp) as (w1 & r & Hex).
    rewrite Hex in *. eexists _, _. split; [done|]. by split.
Qed.

(** *** Submission *)

Lemma submitted_work (g : nat → nat) (uris : list string) :
  work_of (imap (λ i uri, (g i, Fetch uri)) uris) = (2 * length uris)%nat.
Proof.
  revert g. induction uris as [|uri uris IH]; intros g; [done|].
  rewrite imap_cons. simpl.
  assert (work_of (imap ((λ i uri, (g i, Fetch uri)) ∘ S) uris)
          = (2 * length uris)%nat) as -> by exact (IH (g ∘ S)).
  lia.
Qed.

Lemma submitted_uris (g : nat → nat) (uris : list string) :
  uris_of (imap (λ i uri, (g i, Fetch uri)) uris) = uris.
Proof.
  revert g. induction uris as [|uri uris IH]; intros g; [done|].
  rewrite imap_cons. simpl. f_equal. exact (IH (g ∘ S)).
Qed.

Lemma submitted_ids (uris : list string) :
  (imap (λ i uri, (i, Fetch uri)) uris).*1 = seq 0 (length uris).
Proof.
  rewrite fmap_imap.
  exact (eq_trans (imap_seq_0 uris (λ i, i)) (list_fmap_id _)).
Qed.

Lemma submitted_stages (g : nat → nat) (uris : list string) :
  (imap (λ i uri, (g i, Fetch uri)) uris).*2 = Fetch <$> uris.
Proof.
  revert g. induction uris as [|uri uris IH]; intros g; [done|].
  rewrite imap_cons. simpl. f_equal. exact (IH (g ∘ S)).
Qed.

(** *** The joined runs *)

Lemma run_submitted (mw : option nat) (ff : bool)
    (step : stage → M (option stage)) (uris : list string) (ev : env)
    (w w' : world) (pl : pool) :
  mw ≠ Some 0%nat →
  (∀ s ev w w' r, step s ev w = (w', r) →
     ∃ seg, trace w' = trace w ++ seg ∧ gets seg = stage_uris s) →
  (∀ s ev w w' s', step s ev w = (w', Ret (Some s')) →
     (stage_work s' < stage_work s)%nat ∧ stage_uris s' = []) →
  run_units mw ff step (enough_fuel uris) 0 (submit_all uris) ev w
    = (w', Ret pl) →
  quiescent pl
  ∧ (finished pl).*1 ≡ₚ seq 0 (length uris)
  ∧ ∃ seg, trace w' = trace w ++ seg ∧ gets seg ≡ₚ uris.
Proof.
  intros Hmw Hgets Hnext Hrun.
  apply (run_units_spec mw ff step Hmw Hgets Hnext) in Hrun
    as (Hdone & Hids & seg & Htr & Hseg).
  - apply work_of_zero in Hdone as Hnone.
    unfold pending_uris in Hseg. rewrite Hnone in Hids, Hseg.
    unfold units in *. simpl in *.
    rewrite !app_nil_r, submitted_ids in Hids.
    rewrite !app_nil_r, submitted_uris in Hseg.
    apply app_eq_nil in Hnone. split; [done|]. split; [done|].
    by exists seg.
  - unfold pool_work, units, enough_fuel. simpl.
    by rewrite app_nil_r, submitted_work.
Qed.

Lemma submitted_safe (g : nat → nat) (m : gmap path node)
    (uris : list string) :
  Forall (λ u, stage_safe m u.2) (imap (λ i uri, (g i, Fetch uri)) uris).
Proof.
  revert g. induction uris as [|uri uris IH]; intros g; [constructor|].
  rewrite imap_cons. constructor; [done|]. exact (IH (g ∘ S)).
Qed.

Lemma threaded_units_spec (uris : list string) (d : path) (ev : env)
    (w : world) :
  ∃ w' pl seg,
    threaded_units uris d ev w = (w', Ret pl)
    ∧ quiescent pl
    ∧ (finished pl).*1 ≡ₚ seq 0 (length uris)
    ∧ trace w' = trace w ++ seg
    ∧ gets seg ≡ₚ uris.
Proof.
  destruct (run_units_returns (Some 3%nat) (step_sync d)
              (enough_fuel uris) 0 (submit_all uris) ev w)
    as (w' & pl & Hrun).
  destruct (run_submitted (Some 3%nat) false (step_sync d) uris ev w w' pl)
    as (Hq & Hids & seg & Htr & Hgets);
    [done | apply step_sync_gets | apply step_sync_next | exact Hrun |].
  by exists w', pl, seg.
Qed.

Lemma gathered_units_spec (session : ClientSession) (uris : list string)
    (d : path) (ev : env) (w : world) :
  ∃ w' pl seg,
    gathered_units session uris d ev w = (w', Ret pl)
    ∧ quiescent pl
    ∧ (finished pl).*1 ≡ₚ seq 0 (length uris)
    ∧ trace w' = trace w ++ seg
    ∧ gets seg ≡ₚ uris
    ∧ Forall (λ f, f.2 = Ret tt) (finished pl).
Proof.
  destruct (run_units_safe None (step_async session d)
              (step_async_safe session d)
              (enough_fuel uris) 0 (submit_all uris) ev w)
    as (w' & pl & Hrun & Hfin).
  { unfold pool_safe, units. simpl. rewrite app_nil_r.
    apply (submitted_safe (λ i, i)). }
  { constructor. }
  destruct (run_submitted None true (step_async session d) uris ev w w' pl)
    as (Hq & Hids & seg & Htr & Hgets);
    [done | apply step_async_gets | apply step_async_next | exact Hrun |].
  by exists w', pl, seg.
Qed.

(** Reading the futures does not act on the world. *)
Lemma future_results_pure (pl : pool) (ids : list nat) (ev : env)
    (w : world) :
  (for_each ids (future_result pl) ev w).1 = w.
Proof.
  induction ids as [|id ids IH]; simpl; [done|].
  unfold bind, future_result at 1.
  destruct (lookup_future (finished pl) id) as [[[]|e]|]; simpl; auto.
Qed.

Lemma main_threaded_gets (uris : list string) (ev : env) (w : world) :
  is_file (fs w) ["downloads"] = false →
  ∃ seg,
    trace (main_threaded uris ev w).1 = trace w ++ seg ∧ gets seg ≡ₚ uris.
Proof.
  intros Hdir.
  set (w0 := World (fs w)
               (trace w ++ [Print (Text "Starting threaded download...")])).
  set (w1 := World (<[["downloads"] := Dir]> (fs w0)) (trace w0)).
  destruct (threaded_units_spec uris ["downloads"] ev w1)
    as (w2 & pl & seg & Hrun & _ & _ & Htr & Hgets).
  pose proof (future_results_pure pl (seq 0 (length uris)) ev w2) as Hpure.
  assert (trace (main_threaded uris ev w).1 = trace w2
          ∨ trace (main_threaded uris ev w).1
            = trace w2 ++ [Print (Text "Threaded download completed")])
    as Hmain.
  { unfold main_threaded, bind, print, emit. fold w0.
    rewrite (create_downloads_directory_ok ev w0) by done.
    fold w1. rewrite Hrun.
    destruct (for_each _ _ ev w2) as [w3 [[]|e]]; simpl in *; subst w3; auto. }
  destruct Hmain as [-> | ->]; rewrite Htr; simpl; rewrite <- !app_assoc;
    eexists; (split; [done|]); rewrite !gets_app; simpl;
    by rewrite ?app_nil_r.
Qed.

Lemma main_async_gets (uris : list string) (ev : env) (w : world) :
  is_file (fs w) ["downloads"] = false →
  (main_async uris ev w).2 = Ret tt
  ∧ ∃ seg,
      trace (main_async uris ev w).1 = trace w ++ seg ∧ gets seg ≡ₚ uris.
Proof.
  intros Hdir.
  set (w0 := World (fs w)
               (trace w ++ [Print (Text "Starting async download...")])).
  set (w1 := World (<[["downloads"] := Dir]> (fs w0)) (trace w0)).
  destruct (gathered_units_spec Session uris ["downloads"] ev w1)
    as (w2 & pl & seg & Hrun & _ & _ & Htr & Hgets & _).
  assert (main_async uris ev w
          = (World (fs w2)
               (trace w2 ++ [Print (Text "Async download completed")]),
             Ret tt)) as ->.
  { unfold main_async, bind, print, emit. fold w0.
    rewrite (create_downloads_directory_ok ev w0) by done.
    fold w1. by rewrite Hrun. }
  split; [done|]. simpl. rewrite Htr. simpl. rewrite <- !app_assoc.
  eexists. split; [done|]. rewrite !gets_app. simpl. by rewrite app_nil_r.
Qed.


(** A unit that raises in the thread pool: the other unit is unpacked all
    the same, and the exception comes out of [future.result()] after
    that. *)
Example threaded_failure_isolated :
  let uris := ["http://data.test/"; "http://data.test/sample.zip"] in
  (threaded_units uris ["downloads"] headless ready_world).2
    = Ret (Pool [] [] [(0%nat, Raise IsADirectoryError); (1%nat, Ret tt)])
  ∧ (main_threaded uris headless ready_world).2 = Raise IsADirectoryError
  ∧ records_of (trace (main_threaded uris headless ready_world).1)
    = [Extracted "sample.zip"].
Proof. repeat split; vm_compute; reflexivity. Qed.

(** ** Failures of the file system *)

Lemma unpack_blocked (dir : path) (entries : list (string * bytes))
    (m : gmap path node) :
  Exists (λ entry, writable m (dir ++ [entry.1]) = false) entries →
  ∃ m' e, unpack dir entries m = (m', Some e).
Proof.
  revert m. induction entries as [|[n data] rest IH]; intros m Hex; simpl.
  - by apply Exists_nil in Hex.
  - destruct (open_error m (dir ++ [n])) as [e|] eqn:Hopen; [eauto|].
    apply open_error_writable in Hopen as Hw.
    apply Exists_cons in Hex as [Hn|Hrest]; [simpl in Hn; congruence|].
    apply IH. eapply Exists_impl; [exact Hrest|].
    intros entry Hentry. simpl in *.
    rewrite (same_dirs_writable m); [done|].
    by apply same_dirs_insert_file, writable_not_dir.
Qed.

Lemma main_sync_blocked (uris : list string) (ev : env) (w : world) :
  is_file (fs w) ["downloads"] = true →
  (main_sync uris ev w).2 = Raise FileExistsError.
Proof.
  intros Hf. unfold main_sync, bind, print, emit.
  by rewrite create_downloads_directory_blocked.
Qed.

Lemma main_threaded_blocked (uris : list string) (ev : env) (w : world) :
  is_file (fs w) ["downloads"] = true →
  (main_threaded uris ev w).2 = Raise FileExistsError.
Proof.
  intros Hf. unfold main_threaded, bind, print, emit.
  by rewrite create_downloads_directory_blocked.
Qed.

Lemma main_async_blocked (uris : list string) (ev : env) (w : world) :
  is_file (fs w) ["downloads"] = true →
  (main_async uris ev w).2 = Raise FileExistsError.
Proof.
  intros Hf. unfold main_async, bind, print, emit.
  by rewrite create_downloads_directory_blocked.
Qed.

(** C6, as stated, fails twice: a write that fails while an archive is
    unpacked is caught by [extract_zip_file], which returns [None]; and
    a failed [open] in the asyncio fetcher is caught by
    [download_file_async], which returns [None], so its task ends
    normally. *)
Lemma write_failures_are_caught :
  open_error (fs blocked_world) ["downloads"; "a.csv"]
    = Some IsADirectoryError
  ∧ (extract_zip_file ["downloads"; "sample.zip"] headless blocked_world).2
    = Ret None
  ∧ open_error (fs ready_world)
      (path_join ["downloads"]
         (extract_filename_from_uri "http://data.test/"))
    = Some IsADirectoryError
  ∧ (download_file_async Session "http://data.test/" ["downloads"] headless
       ready_world).2
    = Ret None
  ∧ (step_async Session ["downloads"] (Fetch "http://data.test/") headless
       ready_world).2
    = Ret None.
Proof. repeat split; vm_compute; reflexivity. Qed.

(** C6, amended.  A failed [open] of the target file is not handled in
    the blocking fetcher: the [OSError] leaves [download_file_sync] and
    [download_and_extract_sync], ends the sequential loop, and in the
    thread pool ends the unit.  The asyncio fetcher catches it and
    returns [None].  A write that fails during unpacking is caught by
    [extract_zip_file]: it returns [None] and still removes the archive.
    A [downloads] that cannot be created ends each orchestrator with the
    exception, before any fetch. *)
Theorem filesystem_failure_handling :
  (∀ uri d rest ev w,
     passes_status (http ev uri) = true →
     writable (fs w) (path_join d (extract_filename_from_uri uri)) = false →
     ∃ e w',
       is_OSError e = true
       ∧ fs w' = fs w
       ∧ download_file_sync uri d ev w = (w', Raise e)
       ∧ download_and_extract_sync uri d ev w = (w', Raise e)
       ∧ for_each (uri :: rest) (λ u, download_and_extract_sync u d) ev w
         = (w', Raise e)
       ∧ step_sync d (Fetch uri) ev w = (w', Raise e))
  ∧ (∀ session uri d ev w,
       writable (fs w) (path_join d (extract_filename_from_uri uri))
         = false →
       ∃ w',
         fs w' = fs w
         ∧ download_file_async session uri d ev w = (w', Ret None)
         ∧ step_async session d (Fetch uri) ev w = (w', Ret None))
  ∧ (∀ p ev w data entries,
       node_at (fs w) p = Some (File data) →
       zip_decode ev data = Some entries →
       Exists (λ entry, writable (fs w) (parent p ++ [entry.1]) = false)
         entries →
       ∃ w' e,
         is_OSError e = true
         ∧ extract_zip_file p ev w = (w', Ret None)
         ∧ node_at (fs w') p = None
         ∧ records_of (since w w') = [FailedExtract p e])
  ∧ (∀ uris ev w,
       is_file (fs w) ["downloads"] = true →
       (main_sync uris ev w).2 = Raise FileExistsError
       ∧ (main_threaded uris ev w).2 = Raise FileExistsError
       ∧ (main_async uris ev w).2 = Raise FileExistsError).
Proof.
  split; [|split; [|split]].
  - intros uri d rest ev w Hpass Hw.
    destruct (fetch_outcome_blocked 30 passes_status uri d ev w)
      as (e & He & Hf); [done..|].
    exists e, (World (fs w)
                 (trace w ++ [Print (Downloading (extract_filename_from_uri uri));
                              HttpGet uri 30])).
    split; [done|].
    simpl. unfold bind at 1. unfold bind.
    rewrite download_and_extract_sync_outcome, download_file_sync_outcome, Hf.
    done.
  - intros session uri d ev w Hw. simpl. unfold bind.
    rewrite download_file_async_outcome.
    destruct (open_error_not_writable _ _ Hw) as (e & He & _).
    unfold fetch_outcome. rewrite He.
    destruct (http ev uri) as [|s body br];
      [|destruct (passes_status_aio _)];
      (eexists; split; [|split; reflexivity]; reflexivity).
  - intros p ev w data entries Hp Hzip Hex.
    rewrite extract_zip_file_outcome. unfold extract_outcome.
    rewrite Hp, Hzip.
    destruct (unpack_blocked _ _ _ Hex) as (m' & e & Hun). rewrite Hun.
    assert (p ≠ []) as Hne by (by destruct p).
    eexists _, e. split; [by eapply unpack_error_is_OSError|].
    split; [done|]. simpl. split; [by rewrite node_at_delete, decide_True|].
    by rewrite (since_app _ _ [Print (FailedExtract p e)]).
  - auto using main_sync_blocked, main_threaded_blocked, main_async_blocked.
Qed.

(** The four cases at work: the locator [http://data.test/] names the
    directory itself, an entry of the sample archive meets a directory,
    and [downloads] is a file. *)
Lemma filesystem_failure_handling_witness :
  (∃ e w',
     is_OSError e = true
     ∧ download_and_extract_sync "http://data.test/" ["downloads"] headless
         ready_world = (w', Raise e))
  ∧ (∃ w',
       download_file_async Session "http://data.test/" ["downloads"]
         headless ready_world = (w', Ret None))
  ∧ (∃ w',
       extract_zip_file ["downloads"; "sample.zip"] headless blocked_world
         = (w', Ret None)
       ∧ node_at (fs w') ["downloads"; "sample.zip"] = None)
  ∧ (main_sync download_uris headless
       (World {[ ["downloads"] := File [] ]} [])).2
    = Raise FileExistsError.
Proof.
  destruct filesystem_failure_handling as (Hsync & Hasync & Hextract & Hmkdir).
  split; [|split; [|split]].
  - destruct (Hsync "http://data.test/" ["downloads"] [] headless ready_world)
      as (e & w' & He & _ & _ & Hrun & _); [reflexivity..|].
    by exists e, w'.
  - destruct (Hasync Session "http://data.test/" ["downloads"] headless
                ready_world) as (w' & _ & Hrun & _); [reflexivity|].
    by exists w'.
  - destruct (Hextract ["downloads"; "sample.zip"] headless blocked_world
                sample_zip sample_entries)
      as (w' & e & _ & Hrun & Hgone & _); [reflexivity..| |].
    + apply Exists_cons_hd. reflexivity.
    + by exists w'.
  - apply (Hmkdir download_uris headless). reflexivity.
Defined.

(** ** The entry point *)

Lemma raises_only_bind {A B} (P : exn → Prop) (c : M A) (k : A → M B) :
  raises_only P c → (∀ a, raises_only P (k a)) → raises_only P (bind c k).
Proof.
  intros Hc Hk ev w w' e. unfold bind.
  destruct (c ev w) as [w1 [a|e1]] eqn:Hrun.
  - apply Hk.
  - intros [= <- <-]. by eapply Hc.
Qed.

Lemma raises_only_print (P : exn → Prop) (m : message) :
  raises_only P (print m).
Proof. by intros ev w w' e. Qed.

Lemma raises_only_for_each {A} (P : exn → Prop) (l : list A)
    (body : A → M unit) :
  (∀ x, raises_only P (body x)) → raises_only P (for_each l body).
Proof.
  intros Hbody. induction l as [|x l IH]; simpl.
  - by intros ev w w' e.
  - apply raises_only_bind; eauto.
Qed.

Lemma raises_only_create :
  raises_only (λ e, is_OSError e = true) create_downloads_directory.
Proof.
  intros ev w w' e.
  unfold create_downloads_directory, mkdir_exist_ok. munfold.
  destruct (fs w !! ["downloads"]) as [[data|]|]; [|done..].
  by intros [= <- <-].
Qed.

Lemma raises_only_unit_sync (uri : string) (d : path) :
  raises_only (λ e, is_OSError e = true) (download_and_extract_sync uri d).
Proof.
  intros ev w w' e. rewrite download_and_extract_sync_outcome.
  destruct (fetch_outcome _ _ _ _ _ _ _) as [w1 [[p|]|e1]] eqn:Hf; [|done|].
  - destruct (extract_outcome p ev w1) as [w2 [r|e2]] eqn:Hex; [done|].
    intros [= <- <-]. by apply extract_outcome_raise in Hex as [_ ->].
  - intros [= <- <-]. apply fetch_outcome_raise in Hf as (_ & Hopen & _).
    eauto using open_error_is_OSError.
Qed.

Lemma raises_only_step_sync (d : path) (s : stage) :
  raises_only (λ e, is_OSError e = true) (step_sync d s).
Proof.
  destruct s as [uri|p]; intros ev w w' e; simpl; unfold bind, ret.
  - rewrite download_file_sync_outcome.
    destruct (fetch_outcome _ _ _ _ _ _ _) as [w1 [o|e1]] eqn:Hf; [done|].
    intros [= <- <-]. apply fetch_outcome_raise in Hf as (_ & Hopen & _).
    eauto using open_error_is_OSError.
  - rewrite extract_zip_file_outcome.
    destruct (extract_outcome p ev w) as [w2 [r|e2]] eqn:Hex; [done|].
    intros [= <- <-]. by apply extract_outcome_raise in Hex as [_ ->].
Qed.

Lemma main_sync_raises_only (uris : list string) :
  raises_only (λ e, is_OSError e = true) (main_sync uris).
Proof.
  unfold main_sync.
  apply raises_only_bind; [apply raises_only_print|intros _].
  apply raises_only_bind; [apply raises_only_create|intros d].
  apply raises_only_bind; [|intros _; apply raises_only_print].
  apply raises_only_for_each. intros uri. apply raises_only_unit_sync.
Qed.

(** The futures of a pool hold only what its steps can raise. *)
Lemma run_units_futures (P : exn → Prop) (mw : option nat) (ff : bool)
    (step : stage → M (option stage)) (fuel t : nat) (pl pl' : pool)
    (ev : env) (w w' : world) :
  (∀ s, raises_only P (step s)) →
  futures_hold P (finished pl) →
  run_units mw ff step fuel t pl ev w = (w', Ret pl') →
  futures_hold P (finished pl').
Proof.
  intros Hstep. revert t pl w.
  induction fuel as [|fuel IH]; intros t pl w Hfin; simpl.
  - by intros [= _ <-].
  - unfold bind, ask, unit_step.
    assert (finished (start_queued mw pl) = finished pl) as Hfin0 by done.
    set (pl0 := start_queued mw pl) in *. clearbody pl0.
    destruct (running pl0 !! _) as [[id s]|].
    + destruct (step s ev w) as [w1 [[s'|]|e]] eqn:Hs.
      * apply IH. simpl. by rewrite Hfin0.
      * apply IH. simpl. rewrite Hfin0. apply Forall_app. split; [done|].
        by constructor.
      * destruct ff; [done|]. apply IH. simpl. rewrite Hfin0.
        apply Forall_app. split; [done|]. constructor; [|done].
        simpl. intros e' [= <-]. by eapply Hstep.
    + apply IH. by rewrite Hfin0.
Qed.

Lemma lookup_future_elem (fin : list (nat * result unit)) (id : nat)
    (r : result unit) :
  lookup_future fin id = Some r → (id, r) ∈ fin.
Proof.
  induction fin as [|[id' r'] fin IH]; simpl; [done|].
  case_decide; subst.
  - intros [= <-]. apply list_elem_of_here.
  - intros Hl. apply list_elem_of_further. auto.
Qed.

Lemma raises_only_future_result (P : exn → Prop) (pl : pool) (id : nat) :
  futures_hold P (finished pl) → raises_only P (future_result pl id).
Proof.
  intros Hfin ev w w' e. unfold future_result.
  destruct (lookup_future (finished pl) id) as [[[]|e']|] eqn:Hl; [done| |done].
  intros [= <- <-]. apply lookup_future_elem in Hl.
  unfold futures_hold in Hfin. rewrite Forall_forall in Hfin.
  by apply (Hfin _ Hl).
Qed.

Lemma main_threaded_raises_only (uris : list string) :
  raises_only (λ e, is_OSError e = true) (main_threaded uris).
Proof.
  unfold main_threaded.
  apply raises_only_bind; [apply raises_only_print|intros _].
  apply raises_only_bind; [apply raises_only_create|intros d].
  intros ev w w' e. unfold bind at 1.
  destruct (run_units_returns (Some 3%nat) (step_sync d) (enough_fuel uris)
              0 (submit_all uris) ev w) as (w1 & pl & Hrun).
  unfold threaded_units. rewrite Hrun.
  assert (raises_only (λ e, is_OSError e = true)
            (for_each (seq 0 (length uris)) (future_result pl)
               >> print (Text "Threaded download completed"))) as Hrest;
    [|apply Hrest].
  apply raises_only_bind; [|intros _; apply raises_only_print].
  apply raises_only_for_each. intros id.
  apply raises_only_future_result.
  eapply run_units_futures; [apply raises_only_step_sync| |exact Hrun].
  constructor.
Qed.

Lemma main_async_raises_only (uris : list string) :
  raises_only (λ e, is_OSError e = true) (main_async uris).
Proof.
  unfold main_async.
  apply raises_only_bind; [apply raises_only_print|intros _].
  apply raises_only_bind; [apply raises_only_create|intros d].
  intros ev w w' e. unfold bind at 1.
  destruct (run_units_safe None (step_async Session d)
              (step_async_safe Session d) (enough_fuel uris) 0
              (submit_all uris) ev w) as (w1 & pl & Hrun & _).
  { unfold pool_safe, units. simpl. rewrite app_nil_r.
    apply (submitted_safe (λ i, i)). }
  { constructor. }
  unfold gathered_units. rewrite Hrun.
  done.
Qed.

Lemma try_except_passes {A} (c c' : M A) (handles : exn → bool)
    (handler : exn → M A) (ev : env) (w : world) :
  c ev w = c' ev w →
  raises_only (λ e, handles e = false) c' →
  try_except c handles handler ev w = c' ev w.
Proof.
  intros Heq Hc. unfold try_except. rewrite Heq.
  destruct (c' ev w) as [w' [a|e]] eqn:Hrun; [done|].
  by rewrite (Hc _ _ _ _ Hrun).
Qed.

Lemma raises_only_weaken {A} (P Q : exn → Prop) (c : M A) :
  (∀ e, P e → Q e) → raises_only P c → raises_only Q c.
Proof. intros HPQ Hc ev w w' e Hrun. eauto. Qed.

Lemma OSError_not_input_error (e : exn) :
  is_OSError e = true → is_EOFError_or_KeyboardInterrupt e = false.
Proof. by destruct e. Qed.

(** C8, as stated, fails: the line [" 2"] is not ["2"], yet it starts the
    thread pool and not the sequential run. *)
Lemma padded_choice_runs_threaded :
  let ev := sample_env true (Some " 2") in
  " 2" ≠ "2"
  ∧ main download_uris ev empty_world
    = (menu >> print (Text "Enter choice (1-3) or press Enter for sync: ")
         >> main_threaded download_uris) ev empty_world
  ∧ main download_uris ev empty_world
    ≠ (menu >> print (Text "Enter choice (1-3) or press Enter for sync: ")
         >> main_sync download_uris) ev empty_world.
Proof.
  split; [done|]. split; [vm_compute; reflexivity|].
  intros Heq. apply (f_equal (λ x, trace x.1 !! 5%nat)) in Heq.
  vm_compute in Heq. discriminate Heq.
Qed.

(** C8, amended.  Without a terminal on standard input [main] runs the
    sequential orchestrator.  With one, it reads a line and strips the
    white space around it: what is left being "2" runs the thread pool,
    "3" runs the asyncio orchestrator, anything else, the empty line
    included, runs the sequential orchestrator; so does the end of
    input. *)
Theorem main_dispatch (uris : list string) (ev : env) (w : world) :
  let prompt := print (Text "Enter choice (1-3) or press Enter for sync: ") in
  main uris ev w
  = if negb (stdin_isatty ev) then
      (print (Text "Running in non-interactive mode, using synchronous download...")
         >> main_sync uris) ev w
    else
      match stdin_line ev with
      | None =>
          (menu >> prompt
             >> print (Text "No input available, running synchronous download...")
             >> main_sync uris) ev w
      | Some line =>
          if decide (strip line = "2") then
            (menu >> prompt >> main_threaded uris) ev w
          else if decide (strip line = "3") then
            (menu >> prompt >> asyncio_run (main_async uris)) ev w
          else (menu >> prompt >> main_sync uris) ev w
      end.
Proof.
  intros prompt. unfold main.
  assert (∀ c : M unit, raises_only (λ e, is_OSError e = true) c →
          raises_only (λ e, is_EOFError_or_KeyboardInterrupt e = false) c)
    as Hos.
  { intros c. apply raises_only_weaken, OSError_not_input_error. }
  assert (∀ c : M unit, raises_only (λ e, is_OSError e = true) c →
          raises_only (λ e, is_EOFError_or_KeyboardInterrupt e = false)
            (menu >> prompt >> c)) as Hmenu.
  { intros c Hc. unfold menu, prompt.
    repeat (apply raises_only_bind; [|intros ?]);
      auto using raises_only_print. }
  destruct (stdin_isatty ev) eqn:Htty; simpl.
  - destruct (stdin_line ev) as [line|] eqn:Hline.
    + case_decide as H2; [|case_decide as H3];
        (apply try_except_passes;
         [ unfold bind at 1, ask; cbv beta iota; rewrite Htty; simpl;
           unfold input, menu, prompt; munfold; rewrite Hline;
           repeat case_decide; done
         | apply Hmenu; unfold asyncio_run;
           auto using main_threaded_raises_only, main_async_raises_only,
             main_sync_raises_only ]).
    + unfold try_except, bind at 1, ask. cbv beta iota. rewrite Htty. simpl.
      unfold input, menu, prompt. munfold. by rewrite Hline.
  - apply try_except_passes.
    + unfold bind at 1, ask. cbv beta iota. by rewrite Htty.
    + apply Hos, raises_only_bind;
        [apply raises_only_print | intros _; apply main_sync_raises_only].
Qed.

(** * Further properties of the code *)

(** ** File names *)

Lemma split_nonempty (sep : ascii) (s : string) : split sep s ≠ [].
Proof.
  destruct s as [|c rest]; simpl; [done|].
  destruct (Ascii.eqb c sep); [done|]. by destruct (split sep rest).
Qed.

Lemma last_cons_nonempty {A} (x d : A) (l : list A) :
  l ≠ [] → List.last (x :: l) d = List.last l d.
Proof. by destruct l. Qed.

Lemma last_app_nonempty {A} (d : A) (l1 l2 : list A) :
  l2 ≠ [] → List.last (l1 ++ l2) d = List.last l2 d.
Proof.
  intros Hne. induction l1 as [|x l1 IH]; [done|].
  simpl app. rewrite last_cons_nonempty; [done|].
  destruct l1; [done|discriminate].
Qed.

Lemma split_no_sep (sep : ascii) (s : string) :
  contains sep s = false → split sep s = [s].
Proof.
  induction s as [|c rest IH]; simpl; [done|].
  destruct (Ascii.eqb c sep); simpl; [done|].
  intros Hrest. by rewrite (IH Hrest).
Qed.

Lemma split_app_sep (sep : ascii) (a b : string) :
  split sep (a +:+ String sep b) = split sep a ++ split sep b.
Proof.
  induction a as [|c a IH]; simpl.
  - by rewrite Ascii.eqb_refl.
  - rewrite IH. destruct (Ascii.eqb c sep); [done|].
    pose proof (split_nonempty sep a). by destruct (split sep a).
Qed.

Lemma split_last (sep : ascii) (s : string) :
  ∃ prefix,
    s = prefix +:+ List.last (split sep s) ""
    ∧ contains sep (List.last (split sep s) "") = false
    ∧ ((prefix = "" ∧ split sep s = [s])
       ∨ ((∃ q, prefix = q +:+ String sep "")
          ∧ (1 < length (split sep s))%nat)).
Proof.
  induction s as [|c rest IH]; [exists ""; simpl; auto|].
  destruct IH as (prefix & Hs & Hno & Hshape).
  pose proof (split_nonempty sep rest) as Hne.
  simpl. destruct (Ascii.eqb c sep) eqn:Hc.
  - apply Ascii.eqb_eq in Hc as ->.
    rewrite last_cons_nonempty by done.
    exists (String sep prefix). split; [by rewrite Hs at 1|].
    split; [done|]. right. split.
    + destruct Hshape as [[-> _]|[[q ->] _]]; [by exists ""|].
      by exists (String sep q).
    + destruct (split sep rest); [done|simpl; lia].
  - destruct (split sep rest) as [|h t] eqn:Hsplit; [done|].
    destruct Hshape as [[-> Hone]|[[q ->] Hlen]].
    + injection Hone as -> ->. exists "". simpl in *.
      rewrite Hc, Hno. auto.
    + destruct t as [|h' t]; [simpl in Hlen; lia|].
      exists (String c (q +:+ String sep "")).
      split; [by rewrite Hs at 1|]. split; [done|].
      right. split; [by exists (String c q)|simpl; lia].
Qed.

Lemma filename_no_slash (uri : string) :
  contains "/" (extract_filename_from_uri uri) = false.
Proof.
  unfold extract_filename_from_uri.
  by destruct (split_last "/" uri) as (_ & _ & Hno & _).
Qed.

(** X1. The file name taken from a locator holds no slash, and the
    locator is that name behind a prefix that is empty or ends in a
    slash: the name is what follows the last slash. *)
Theorem filename_is_last_segment (uri : string) :
  let filename := extract_filename_from_uri uri in
  contains "/" filename = false
  ∧ ∃ prefix,
      uri = prefix +:+ filename
      ∧ (prefix = "" ∨ ∃ q, prefix = q +:+ "/").
Proof.
  unfold extract_filename_from_uri.
  destruct (split_last "/" uri) as (prefix & Hs & Hno & Hshape).
  split; [done|]. exists prefix. split; [done|].
  destruct Hshape as [[-> _]|[Hq _]]; auto.
Qed.

(** X2. For a name without a slash, whatever stands before the last
    slash of the locator is dropped. *)
Theorem filename_of_joined (base filename : string) :
  contains "/" filename = false →
  extract_filename_from_uri (base +:+ "/" +:+ filename) = filename.
Proof.
  intros Hno. unfold extract_filename_from_uri.
  change (base +:+ "/" +:+ filename) with (base +:+ String "/" filename).
  rewrite split_app_sep, (split_no_sep _ _ Hno).
  by rewrite last_app_nonempty.
Qed.

Lemma filename_of_joined_witness :
  extract_filename_from_uri
    ("https://divvy-tripdata.s3.amazonaws.com" +:+ "/"
       +:+ "Divvy_Trips_2018_Q4.zip")
  = "Divvy_Trips_2018_Q4.zip".
Proof. apply filename_of_joined. reflexivity. Defined.

(** ** The downloads directory *)

(** X3. [create_downloads_directory] returns [downloads] unless a file
    of that name is in the way: afterwards [downloads] is a directory,
    nothing else has changed, nothing is printed, and calling it again
    changes nothing.  With a file in the way it raises
    [FileExistsError] and leaves everything as it was. *)
Theorem create_downloads_directory_exist_ok (ev : env) (w : world) :
  match create_downloads_directory ev w with
  | (w', Ret d) =>
      d = ["downloads"]
      ∧ is_file (fs w) d = false
      ∧ is_dir (fs w') d = true
      ∧ trace w' = trace w
      ∧ (∀ q, q ≠ d → fs w' !! q = fs w !! q)
      ∧ create_downloads_directory ev w' = (w', Ret d)
  | (w', Raise e) =>
      e = FileExistsError ∧ is_file (fs w) ["downloads"] = true ∧ w' = w
  end.
Proof.
  destruct (is_file (fs w) ["downloads"]) eqn:Hfile.
  - by rewrite create_downloads_directory_blocked.
  - rewrite create_downloads_directory_ok by done.
    split; [done|]. split; [done|].
    split; [unfold is_dir; simpl; by rewrite lookup_insert_eq|].
    split; [done|].
    split; [intros q Hq; simpl; by rewrite lookup_insert_ne|].
    rewrite create_downloads_directory_ok.
    + simpl. by rewrite insert_insert_eq.
    + unfold is_file. simpl. by rewrite lookup_insert_eq.
Qed.

(** ** The fetchers, once more *)

Lemma apply_ops_app (ops1 ops2 : list (path * option node))
    (m : gmap path node) :
  apply_ops (ops1 ++ ops2) m = apply_ops ops2 (apply_ops ops1 m).
Proof. unfold apply_ops. by rewrite foldl_app. Qed.

Lemma partial_alter_put (p : path) (n : node) (m : gmap path node) :
  partial_alter (λ _, Some n) p m = <[p := n]> m.
Proof. done. Qed.

Lemma partial_alter_take (p : path) (m : gmap path node) :
  partial_alter (λ _, None) p m = delete p m.
Proof. done. Qed.

Lemma fetch_outcome_fs (t : Z) (passes : response → bool)
    (catches_os : bool) (uri : string) (d : path) (ev : env) (w : world) :
  passes Unreachable = false →
  fs (fetch_outcome t passes catches_os uri d ev w).1
  = apply_ops (fetch_ops passes uri d ev (fs w)) (fs w).
Proof.
  intros Hun. unfold fetch_outcome, fetch_ops, target_of.
  destruct (http ev uri) as [|s body br] eqn:Hr; [by rewrite Hun|].
  destruct (passes (Response s body br)); [|done]. simpl.
  destruct (open_error _ _) as [e|] eqn:Hopen.
  - assert (writable (fs w) (path_join d (extract_filename_from_uri uri))
            = false) as ->.
    { destruct (writable _ _) eqn:Hw; [|done].
      apply open_error_writable in Hw. congruence. }
    by destruct catches_os.
  - apply open_error_writable in Hopen as ->.
    by destruct br.
Qed.

(** What a fetch returns, read off the answer and the directories. *)
Lemma fetch_outcome_result (t : Z) (passes : response → bool)
    (catches_os : bool) (uri : string) (d : path) (ev : env) (w : world) :
  passes Unreachable = false →
  (fetch_outcome t passes catches_os uri d ev w).2
  = if passes (http ev uri) then
      match open_error (fs w) (target_of d uri) with
      | Some e => if catches_os then Ret None else Raise e
      | None =>
          if stream_breaks (http ev uri) then Ret None
          else Ret (Some (target_of d uri))
      end
    else Ret None.
Proof.
  intros Hun. unfold fetch_outcome, target_of.
  destruct (http ev uri) as [|s body br] eqn:Hr; [by rewrite Hun|].
  destruct (passes (Response s body br)); [|done].
  destruct (open_error _ _) as [e|]; [by destruct catches_os|].
  by destruct (stream_breaks _).
Qed.

Lemma target_of_cases (d : path) (uri : string) :
  let f := extract_filename_from_uri uri in
  target_of d uri = d
  ∨ target_of d uri = parent d
  ∨ (target_of d uri = d ++ [f] ∧ contains "/" f = false).
Proof.
  unfold target_of, path_join. simpl. repeat case_decide; auto.
  right; right. split; [done|]. apply filename_no_slash.
Qed.

Lemma fetch_ops_stay (passes : response → bool) (uri : string) (d : path)
    (ev : env) (m : gmap path node) (q : path) :
  is_dir m d = true →
  is_dir m (parent d) = true →
  apply_ops (fetch_ops passes uri d ev m) m !! q = m !! q
  ∨ (q = d ++ [extract_filename_from_uri uri] ∧ parent q = d).
Proof.
  intros Hd Hpd. unfold fetch_ops.
  destruct (passes _ && writable _ _) eqn:Hgo; [|by left].
  apply andb_prop in Hgo as [_ Hw]. apply writable_not_dir in Hw.
  destruct (target_of_cases d uri) as [Ht|[Ht|[Ht _]]];
    rewrite Ht in *; [congruence..|].
  simpl. rewrite partial_alter_put.
  destruct (decide (d ++ [extract_filename_from_uri uri] = q)) as [<-|Hne].
  - right. split; [done|]. unfold parent. apply removelast_last.
  - left. by rewrite lookup_insert_ne.
Qed.

(** X4. With [downloads_dir] in place, a fetch, blocking or asyncio,
    leaves every path as it was except the file named after the locator
    directly inside [downloads_dir]: whatever the locator, nothing is
    written outside the directory. *)
Theorem fetch_stays_in_directory (session : ClientSession) (uri : string)
    (d : path) (ev : env) (w : world) (q : path) :
  is_dir (fs w) d = true →
  is_dir (fs w) (parent d) = true →
  (fs (download_file_sync uri d ev w).1 !! q = fs w !! q
   ∧ fs (download_file_async session uri d ev w).1 !! q = fs w !! q)
  ∨ (q = d ++ [extract_filename_from_uri uri]
     ∧ parent q = d
     ∧ contains "/" (extract_filename_from_uri uri) = false).
Proof.
  intros Hd Hpd.
  rewrite download_file_sync_outcome, download_file_async_outcome.
  rewrite !fetch_outcome_fs by done.
  destruct (fetch_ops_stay passes_status uri d ev (fs w) q Hd Hpd)
    as [Hs|[-> Hq]];
    [|right; split; [done|]; split; [done|]; apply filename_no_slash].
  destruct (fetch_ops_stay passes_status_aio uri d ev (fs w) q Hd Hpd)
    as [Ha|[-> Hq]];
    [by left|right; split; [done|]; split; [done|]; apply filename_no_slash].
Qed.

Lemma fetch_stays_in_directory_witness :
  (fs (download_file_sync "http://data.test/sample.zip" ["downloads"]
         headless ready_world).1 !! ["elsewhere"; "sample.zip"]
   = fs ready_world !! ["elsewhere"; "sample.zip"]
   ∧ fs (download_file_async Session "http://data.test/sample.zip"
           ["downloads"] headless ready_world).1
       !! ["elsewhere"; "sample.zip"]
     = fs ready_world !! ["elsewhere"; "sample.zip"])
  ∨ (["elsewhere"; "sample.zip"]
       = ["downloads"]
           ++ [extract_filename_from_uri "http://data.test/sample.zip"]
     ∧ parent ["elsewhere"; "sample.zip"] = ["downloads"]
     ∧ contains "/"
         (extract_filename_from_uri "http://data.test/sample.zip") = false).
Proof. apply fetch_stays_in_directory; reflexivity. Defined.

(** X5. [download_file_sync] raises exactly when the answer passes the
    status check and the target file cannot be opened; the exception is
    then an [OSError] that is no [RequestException]. *)
Theorem download_file_sync_raises_iff (uri : string) (d : path) (ev : env)
    (w : world) (e : exn) :
  (download_file_sync uri d ev w).2 = Raise e
  ↔ passes_status (http ev uri) = true
    ∧ open_error (fs w) (target_of d uri) = Some e.
Proof.
  rewrite download_file_sync_outcome, fetch_outcome_result by done.
  destruct (passes_status _); [|by split; [|intros []]].
  destruct (open_error _ _) as [e'|].
  - split; [by intros [= ->]|by intros [_ [= ->]]].
  - destruct (stream_breaks _); by split; [|intros []].
Qed.

(** X6. [download_file_async] never raises: it returns the path of the
    file when the status is below 400, the file can be opened and the
    stream does not break, and [None] in every other case. *)
Theorem download_file_async_returns (session : ClientSession)
    (uri : string) (d : path) (ev : env) (w : world) :
  (download_file_async session uri d ev w).2
  = Ret (if passes_status_aio (http ev uri)
            && writable (fs w) (target_of d uri)
            && negb (stream_breaks (http ev uri))
         then Some (target_of d uri) else None).
Proof.
  rewrite download_file_async_outcome, fetch_outcome_result by done.
  destruct (passes_status_aio _); [|done]. simpl.
  destruct (open_error _ _) as [e|] eqn:Hopen.
  - destruct (writable _ _) eqn:Hw; [|done].
    apply open_error_writable in Hw. congruence.
  - apply open_error_writable in Hopen as ->.
    by destruct (stream_breaks _).
Qed.



(** ** Fetches of different files *)

Lemma fetch_ops_same_dirs (passes : response → bool) (uri : string)
    (d : path) (ev : env) (m m' : gmap path node) :
  same_dirs m m' → fetch_ops passes uri d ev m' = fetch_ops passes uri d ev m.
Proof.
  intros Hsd. unfold fetch_ops. by rewrite (same_dirs_writable m m').
Qed.

Lemma fetch_ops_keep_dirs (passes : response → bool) (uri : string)
    (d : path) (ev : env) (m : gmap path node) :
  same_dirs m (apply_ops (fetch_ops passes uri d ev m) m).
Proof.
  unfold fetch_ops.
  destruct (passes _ && writable _ _) eqn:Hgo; [|done].
  apply andb_prop in Hgo as [_ Hw]. simpl. rewrite partial_alter_put.
  by apply same_dirs_insert_file, writable_not_dir.
Qed.

Lemma fetch_ops_commute (passes : response → bool) (u1 u2 : string)
    (d : path) (ev : env) (m : gmap path node) :
  target_of d u1 ≠ target_of d u2 →
  apply_ops (fetch_ops passes u2 d ev m)
    (apply_ops (fetch_ops passes u1 d ev m) m)
  = apply_ops (fetch_ops passes u1 d ev m)
      (apply_ops (fetch_ops passes u2 d ev m) m).
Proof.
  intros Hne. unfold fetch_ops.
  destruct (passes (http ev u1) && _); [|done].
  destruct (passes (http ev u2) && _); [|done].
  simpl. rewrite !partial_alter_put. by apply insert_insert_ne.
Qed.

(** Opening a file in [d] is not affected by a fetch of another file
    into [d]. *)
Lemma open_error_after_fetch (passes : response → bool) (u1 u2 : string)
    (d : path) (ev : env) (m : gmap path node) :
  is_dir m d = true →
  is_dir m (parent d) = true →
  target_of d u1 ≠ target_of d u2 →
  open_error (apply_ops (fetch_ops passes u1 d ev m) m) (target_of d u2)
  = open_error m (target_of d u2).
Proof.
  intros Hd Hpd Hne.
  pose proof (fetch_ops_keep_dirs passes u1 d ev m) as Hsd.
  set (m' := apply_ops _ m) in *.
  assert (∀ p, is_dir m p = true →
               open_error m' p = Some IsADirectoryError
               ∧ open_error m p = Some IsADirectoryError) as Hdir.
  { intros p Hp. pose proof (Hsd p) as Hp'. rewrite Hp in Hp'.
    unfold open_error, is_dir in *.
    destruct (node_at m p) as [[]|]; [done| |done].
    by destruct (node_at m' p) as [[]|]. }
  destruct (target_of_cases d u2) as [Ht|[Ht|[Ht _]]]; rewrite Ht in *.
  - destruct (Hdir d Hd) as [-> ->]. done.
  - destruct (Hdir _ Hpd) as [-> ->]. done.
  - assert (node_at m' (d ++ [extract_filename_from_uri u2])
            = node_at m (d ++ [extract_filename_from_uri u2])) as Hnode.
    { subst m'. unfold fetch_ops.
      destruct (passes _ && writable _ _) eqn:Hgo; [|done]. simpl.
      apply andb_prop in Hgo as [_ Hw]. apply writable_not_dir in Hw.
      rewrite partial_alter_put, node_at_insert, decide_False; [done..|].
      by destruct (target_of d u1). }
    unfold open_error, parent. rewrite Hnode, removelast_last.
    pose proof (Hsd d) as Hd'. rewrite Hd in Hd'.
    unfold is_dir in Hd, Hd'.
    destruct (node_at m d) as [[]|]; [done| |done].
    by destruct (node_at m' d) as [[]|].
Qed.

(** X8. With [downloads_dir] in place, two blocking fetches that write
    different files can be made in either order: the file system at the
    end is the same, and each fetch returns (or raises) the same. *)
Theorem fetches_commute (u1 u2 : string) (d : path) (ev : env) (w : world) :
  is_dir (fs w) d = true →
  is_dir (fs w) (parent d) = true →
  target_of d u1 ≠ target_of d u2 →
  let first := download_file_sync u1 d ev w in
  let then_second := download_file_sync u2 d ev first.1 in
  let second := download_file_sync u2 d ev w in
  let then_first := download_file_sync u1 d ev second.1 in
  fs then_second.1 = fs then_first.1
  ∧ first.2 = then_first.2
  ∧ second.2 = then_second.2.
Proof.
  intros Hd Hpd Hne. simpl.
  rewrite !download_file_sync_outcome.
  rewrite !fetch_outcome_fs, !fetch_outcome_result by done.
  rewrite !fetch_outcome_fs by done.
  rewrite (fetch_ops_same_dirs _ u2 d ev (fs w))
    by apply fetch_ops_keep_dirs.
  rewrite (fetch_ops_same_dirs _ u1 d ev (fs w)
             (apply_ops (fetch_ops _ u2 d ev (fs w)) (fs w)))
    by apply fetch_ops_keep_dirs.
  split; [by apply fetch_ops_commute|].
  rewrite !open_error_after_fetch by done. done.
Qed.

Lemma fetches_commute_witness :
  let first :=
    download_file_sync "http://data.test/sample.zip" ["downloads"] headless
      ready_world in
  let then_second :=
    download_file_sync "http://data.test/empty.zip" ["downloads"] headless
      first.1 in
  let second :=
    download_file_sync "http://data.test/empty.zip" ["downloads"] headless
      ready_world in
  let then_first :=
    download_file_sync "http://data.test/sample.zip" ["downloads"] headless
      second.1 in
  fs then_second.1 = fs then_first.1
  ∧ first.2 = then_first.2
  ∧ second.2 = then_second.2.
Proof. apply fetches_commute; [reflexivity | reflexivity | discriminate]. Defined.

(** ** The unpacker, once more *)

(** X9. [extract_zip_file] raises exactly on a path that is a directory;
    the exception is [IsADirectoryError], and the file system is left as
    it was. *)
Theorem extract_zip_file_raises_iff (p : path) (ev : env) (w : world)
    (e : exn) :
  ((extract_zip_file p ev w).2 = Raise e
   ↔ is_dir (fs w) p = true ∧ e = IsADirectoryError)
  ∧ (is_dir (fs w) p = true → fs (extract_zip_file p ev w).1 = fs w).
Proof.
  rewrite extract_zip_file_outcome. unfold extract_outcome, is_dir.
  destruct (node_at (fs w) p) as [[data|]|]; simpl.
  - destruct (zip_decode ev data) as [entries|];
      [destruct (unpack _ _ _) as [m [e'|]]|]; simpl;
      (split; [split; [done|by intros []]|done]).
  - split; [|done]. split; [by intros [= <-]|by intros [_ ->]].
  - split; [split; [done|by intros []]|done].
Qed.

(** X10. Once [extract_zip_file] has returned, a second call on the same
    path finds nothing there: it returns [None], reports
    [FileNotFoundError], and does not touch the file system. *)
Theorem extract_zip_file_again (p : path) (ev : env) (w : world) :
  match extract_zip_file p ev w with
  | (w1, Ret _) =>
      extract_zip_file p ev w1
      = (World (fs w1)
           (trace w1 ++ [Print (FailedExtract p FileNotFoundError)]),
         Ret None)
  | (_, Raise _) => is_dir (fs w) p = true
  end.
Proof.
  rewrite !extract_zip_file_outcome.
  destruct (extract_outcome p ev w) as [w1 [r|e]] eqn:Hex.
  - assert (node_at (fs w1) p = None) as Hgone.
    { revert Hex. unfold extract_outcome.
      destruct (node_at (fs w) p) as [[data|]|] eqn:Hp.
      - assert (p ≠ []) as Hne by (by destruct p).
        destruct (zip_decode ev data) as [entries|];
          [destruct (unpack _ _ _) as [m [e|]]|];
          intros [= <- _]; simpl; by rewrite node_at_delete, decide_True.
      - done.
      - by intros [= <- _]. }
    rewrite extract_zip_file_outcome. unfold extract_outcome.
    by rewrite Hgone.
  - by apply extract_outcome_raise in Hex as [? _].
Qed.

(** X11. A file that is no archive is removed by [extract_zip_file],
    which returns [None] and reports [BadZipFile]; nothing else on disk
    changes. *)
Theorem extract_corrupt_file (p : path) (ev : env) (w : world)
    (data : bytes) :
  node_at (fs w) p = Some (File data) →
  zip_decode ev data = None →
  extract_zip_file p ev w
  = (World (delete p (fs w))
       (trace w ++ [Print (FailedExtract p BadZipFile)]),
     Ret None).
Proof.
  intros Hp Hzip. rewrite extract_zip_file_outcome. unfold extract_outcome.
  by rewrite Hp, Hzip.
Qed.

Lemma extract_corrupt_file_witness :
  extract_zip_file ["downloads"; "notes.zip"] headless junk_world
  = (World {[ ["downloads"] := Dir ]}
       [Print (FailedExtract ["downloads"; "notes.zip"] BadZipFile)],
     Ret None).
Proof.
  rewrite (extract_corrupt_file _ _ _ [Byte.x68; Byte.x69]); reflexivity.
Defined.

Lemma unpacked_app (dir : path) (l1 l2 : list (string * bytes))
    (m : gmap path node) :
  unpacked dir (l1 ++ l2) m = unpacked dir l2 (unpacked dir l1 m).
Proof. unfold unpacked. by rewrite foldl_app. Qed.

Lemma unpacked_lookup_other (dir : path) (entries : list (string * bytes))
    (m : gmap path node) (n : string) :
  n ∉ namelist entries →
  unpacked dir entries m !! (dir ++ [n]) = m !! (dir ++ [n]).
Proof.
  unfold namelist.
  induction entries as [|[n' d'] entries IH] using rev_ind; [done|].
  rewrite fmap_app, not_elem_of_app, unpacked_snoc. simpl.
  intros [Hrest Hn%not_elem_of_cons]. destruct Hn as [Hn _].
  rewrite lookup_insert_ne; [by apply IH|].
  intros Heq%app_inv_head. congruence.
Qed.



(** ** Runs as changes of the file system *)

Lemma apply_ops_lookup (ops : list (path * option node))
    (m : gmap path node) (k : path) :
  apply_ops ops m !! k
  = match assigned ops k with
    | Some v => v
    | None => m !! k
    end.
Proof.
  revert m. induction ops as [|[p v] ops IH]; intros m; [done|].
  change (apply_ops ((p, v) :: ops) m)
    with (apply_ops ops (partial_alter (λ _, v) p m)).
  rewrite IH. simpl. destruct (assigned ops k); [done|].
  case_decide; subst.
  - by rewrite lookup_partial_alter_eq.
  - by rewrite lookup_partial_alter_ne.
Qed.

(** Changes that do not look at what they replace can be made twice. *)
Lemma apply_ops_twice (ops : list (path * option node))
    (m : gmap path node) :
  apply_ops ops (apply_ops ops m) = apply_ops ops m.
Proof.
  apply map_eq. intros k. rewrite !apply_ops_lookup.
  by destruct (assigned ops k).
Qed.

Lemma unpack_ops_same_dirs (dir : path) (entries : list (string * bytes))
    (m m' : gmap path node) :
  same_dirs m m' → unpack_ops dir entries m' = unpack_ops dir entries m.
Proof.
  intros Hsd. induction entries as [|entry rest IH]; simpl; [done|].
  by rewrite (same_dirs_writable m m'), IH.
Qed.

Lemma unpack_as_ops (dir : path) (entries : list (string * bytes))
    (m m' : gmap path node) :
  same_dirs m m' →
  (unpack dir entries m').1 = apply_ops (unpack_ops dir entries m) m'.
Proof.
  revert m'. induction entries as [|[n data] rest IH]; intros m' Hsd; simpl;
    [done|].
  rewrite <- (same_dirs_writable m m') by done.
  destruct (open_error m' (dir ++ [n])) as [e|] eqn:Hopen.
  - destruct (writable m' (dir ++ [n])) eqn:Hw; [|done].
    apply open_error_writable in Hw. congruence.
  - apply open_error_writable in Hopen as Hw. rewrite Hw.
    change (apply_ops ((dir ++ [n], Some (File data)) :: ?ops) m')
      with (apply_ops ops (<[dir ++ [n] := File data]> m')).
    apply IH. eapply same_dirs_trans; [exact Hsd|].
    by apply same_dirs_insert_file, writable_not_dir.
Qed.

Lemma unit_ops_same_dirs (uri : string) (d : path) (ev : env)
    (m m' : gmap path node) :
  same_dirs m m' → unit_ops uri d ev m' = unit_ops uri d ev m.
Proof.
  intros Hsd. unfold unit_ops.
  rewrite (same_dirs_writable m m') by done.
  destruct (zip_decode ev _) as [entries|]; [|done].
  by rewrite (unpack_ops_same_dirs _ _ m m').
Qed.

Lemma unit_raises_same_dirs (uri : string) (d : path) (ev : env)
    (m m' : gmap path node) :
  same_dirs m m' → unit_raises uri d ev m' = unit_raises uri d ev m.
Proof.
  intros Hsd. unfold unit_raises. by rewrite (same_dirs_writable m m').
Qed.

Lemma loop_ops_same_dirs (uris : list string) (d : path) (ev : env)
    (m m' : gmap path node) :
  same_dirs m m' → loop_ops uris d ev m' = loop_ops uris d ev m.
Proof.
  intros Hsd. induction uris as [|uri rest IH]; simpl; [done|].
  by rewrite (unit_ops_same_dirs _ _ _ m m'),
    (unit_raises_same_dirs _ _ _ m m'), IH.
Qed.

Lemma extract_outcome_fs (p : path) (ev : env) (w : world) (data : bytes) :
  node_at (fs w) p = Some (File data) →
  ∃ r,
    (extract_outcome p ev w).2 = Ret r
    ∧ fs (extract_outcome p ev w).1
      = delete p
          match zip_decode ev data with
          | None => fs w
          | Some entries => (unpack (parent p) entries (fs w)).1
          end.
Proof.
  intros Hp. unfold extract_outcome. rewrite Hp.
  destruct (zip_decode ev data) as [entries|]; [|by eexists].
  destruct (unpack _ _ _) as [m [e|]]; by eexists.
Qed.

(** One call of [download_and_extract_sync] as a list of changes, and
    whether it returns. *)
Lemma unit_sync_effect (uri : string) (d : path) (ev : env) (w : world) :
  fs (download_and_extract_sync uri d ev w).1
    = apply_ops (unit_ops uri d ev (fs w)) (fs w)
  ∧ (if unit_raises uri d ev (fs w)
     then ∃ e, (download_and_extract_sync uri d ev w).2 = Raise e
     else (download_and_extract_sync uri d ev w).2 = Ret tt).
Proof.
  rewrite download_and_extract_sync_outcome.
  pose proof (fetch_outcome_fs 30 passes_status false uri d ev w eq_refl)
    as Hfs.
  pose proof (fetch_outcome_result 30 passes_status false uri d ev w eq_refl)
    as Hres.
  destruct (fetch_outcome _ _ _ _ _ _ _) as [w1 r1]. simpl in Hfs, Hres.
  unfold unit_ops, unit_raises. unfold fetch_ops in Hfs.
  set (p := target_of d uri) in *.
  set (body := concat (delivered (http ev uri))) in *.
  destruct (passes_status (http ev uri)); simpl in *; [|by subst r1].
  destruct (writable (fs w) p) eqn:Hw; simpl in *.
  - apply open_error_writable in Hw as Hopen. rewrite Hopen in Hres.
    destruct (stream_breaks (http ev uri)); [by subst r1|]. subst r1.
    assert (p ≠ []) as Hne by (by apply writable_nonroot in Hopen).
    assert (node_at (fs w1) p = Some (File body)) as Hfile.
    { rewrite Hfs, partial_alter_put, node_at_insert, decide_True; done. }
    destruct (extract_outcome_fs p ev w1 body Hfile) as (r & Hr & Hfs2).
    destruct (extract_outcome p ev w1) as [w2 r2]. simpl in *. subst r2.
    simpl. split; [|done]. rewrite Hfs2, Hfs.
    destruct (zip_decode ev body) as [entries|]; [|done].
    rewrite (unpack_as_ops _ _ (fs w))
      by (by apply same_dirs_insert_file, writable_not_dir).
    by rewrite apply_ops_app.
  - destruct (open_error (fs w) p) as [e|] eqn:Hopen.
    + subst r1. eauto.
    + apply open_error_writable in Hopen. congruence.
Qed.

Lemma unit_sync_same_dirs (uri : string) (d : path) (ev : env) (w : world) :
  same_dirs (fs w) (fs (download_and_extract_sync uri d ev w).1).
Proof.
  rewrite download_and_extract_sync_outcome.
  pose proof (fetch_outcome_same_dirs 30 passes_status false uri d ev w)
    as Hsd.
  destruct (fetch_outcome _ _ _ _ _ _ _) as [w1 [[p|]|e]]; [|done..].
  pose proof (extract_outcome_same_dirs p ev w1) as Hsd2.
  destruct (extract_outcome p ev w1) as [w2 [r|e]];
    by eapply same_dirs_trans.
Qed.

(** The loop of [main_sync] as a list of changes; it returns when no
    call raises. *)
Lemma sync_loop_effect (uris : list string) (d : path) (ev : env)
    (w : world) :
  let out := for_each uris (λ u, download_and_extract_sync u d) ev w in
  fs out.1 = apply_ops (loop_ops uris d ev (fs w)) (fs w)
  ∧ same_dirs (fs w) (fs out.1)
  ∧ (out.2 = Ret tt
     ↔ Forall (λ u, unit_raises u d ev (fs w) = false) uris).
Proof.
  revert w. induction uris as [|uri rest IH]; intros w; simpl.
  - split; [done|]. split; [done|]. by split.
  - destruct (unit_sync_effect uri d ev w) as [Hfs Hres].
    pose proof (unit_sync_same_dirs uri d ev w) as Hsd.
    unfold bind.
    destruct (download_and_extract_sync uri d ev w) as [w1 [[]|e]] eqn:Hun;
      simpl in *.
    + destruct (unit_raises uri d ev (fs w)) eqn:Hr;
        [by destruct Hres|].
      destruct (IH w1) as (Hfs2 & Hsd2 & Hres2).
      assert (∀ u, unit_raises u d ev (fs w1) = unit_raises u d ev (fs w))
        as Hsame by (intros u; by apply unit_raises_same_dirs).
      setoid_rewrite Hsame in Hres2.
      split.
      { rewrite apply_ops_app, <- Hfs, Hfs2.
        by rewrite (loop_ops_same_dirs rest d ev (fs w) (fs w1)). }
      split; [by eapply same_dirs_trans|].
      rewrite Hres2, Forall_cons. by split; [|intros []].
    + destruct (unit_raises uri d ev (fs w)) eqn:Hr; [|done].
      rewrite app_nil_r. split; [done|]. split; [done|].
      split; [done|]. intros [Hno _]%Forall_cons. congruence.
Qed.

Lemma main_sync_effect (uris : list string) (ev : env) (w : world) :
  is_file (fs w) ["downloads"] = false →
  let m := <[["downloads"] := Dir]> (fs w) in
  fs (main_sync uris ev w).1
    = apply_ops (loop_ops uris ["downloads"] ev m) m
  ∧ same_dirs m (fs (main_sync uris ev w).1)
  ∧ ((main_sync uris ev w).2 = Ret tt
     ↔ Forall (λ u, unit_raises u ["downloads"] ev m = false) uris).
Proof.
  intros Hdir. simpl.
  set (w0 := World (fs w)
               (trace w ++ [Print (Text "Starting synchronous download...")])).
  set (w1 := World (<[["downloads"] := Dir]> (fs w0)) (trace w0)).
  assert (main_sync uris ev w
          = match for_each uris
                    (λ u, download_and_extract_sync u ["downloads"]) ev w1 with
            | (w2, Ret _) =>
                (World (fs w2)
                   (trace w2
                      ++ [Print (Text "Synchronous download completed")]),
                 Ret tt)
            | (w2, Raise e) => (w2, Raise e)
            end) as ->.
  { unfold main_sync, bind, print, emit. fold w0.
    rewrite (create_downloads_directory_ok ev w0) by done. by fold w1. }
  destruct (sync_loop_effect uris ["downloads"] ev w1) as (Hfs & Hsd & Hres).
  destruct (for_each _ _ ev w1) as [w2 [[]|e]]; simpl in *.
  - split; [done|]. split; [done|]. by rewrite <- Hres.
  - split; [done|]. split; [done|]. rewrite <- Hres. by split.
Qed.



Lemma main_sync_blocked_fs (uris : list string) (ev : env) (w : world) :
  is_file (fs w) ["downloads"] = true →
  fs (main_sync uris ev w).1 = fs w.
Proof.
  intros Hf. unfold main_sync, bind, print, emit.
  by rewrite create_downloads_directory_blocked.
Qed.


Lemma unit_raises_unobstructed (uri : string) (d : path) (ev : env)
    (m : gmap path node) :
  unit_raises uri d ev m = false ↔ unobstructed ev m d uri.
Proof.
  unfold unit_raises, unobstructed, target_of.
  destruct (passes_status _), (writable _ _); simpl; split; auto.
  by intros [|].
Qed.



(** ** The thread pool and the sequential run *)

(** A step of a tracked unit: what it returns is decided by the
    directories, which it keeps. *)
Lemma step_sync_tracks (uris : list string) (ev : env) (m : gmap path node)
    (d : path) (w : world) (id : nat) (s : stage) :
  same_dirs m (fs w) →
  unit_tracks uris ev m d (id, s) →
  same_dirs m (fs (step_sync d s ev w).1)
  ∧ match (step_sync d s ev w).2 with
    | Ret (Some s') => unit_tracks uris ev m d (id, s')
    | Ret None => future_tracks uris ev m d (id, Ret tt)
    | Raise e => future_tracks uris ev m d (id, Raise e)
    end.
Proof.
  intros Hsd Htr. destruct s as [uri|p]; simpl in *; unfold bind, ret.
  - unfold unit_tracks in Htr. simpl in Htr.
    rewrite download_file_sync_outcome.
    pose proof (fetch_outcome_same_dirs 30 passes_status false uri d ev w)
      as Hsd1.
    pose proof (fetch_outcome_result 30 passes_status false uri d ev w
                  eq_refl) as Hres.
    destruct (fetch_outcome _ _ _ _ _ _ _) as [w1 r1] eqn:Hf.
    simpl in *. split; [destruct r1; by eapply same_dirs_trans|].
    assert (writable m (target_of d uri) = writable (fs w) (target_of d uri))
      as Hwm by (symmetry; by apply same_dirs_writable).
    assert (unobstructed ev m d uri
            ↔ passes_status (http ev uri) = false
              ∨ writable (fs w) (target_of d uri) = true) as Hun
      by (unfold unobstructed; fold (target_of d uri); by rewrite Hwm).
    subst r1. unfold future_tracks, unit_tracks.
    destruct (passes_status (http ev uri)); simpl;
      [|exists uri; split; [done|apply Hun; by left]].
    destruct (open_error (fs w) (target_of d uri)) as [e|] eqn:Hopen; simpl.
    + exists uri. split; [done|]. rewrite Hun. intros [|Hw]; [done|].
      apply open_error_writable in Hw. congruence.
    + apply open_error_writable in Hopen as Hw.
      destruct (stream_breaks _); simpl.
      * exists uri. split; [done|]. apply Hun. by right.
      * split; [apply writable_not_dir; by rewrite Hwm|].
        exists uri. split; [done|]. apply Hun. by right.
  - destruct Htr as (Hp & uri & Huri & Hok). simpl in *.
    rewrite extract_zip_file_outcome.
    pose proof (extract_outcome_same_dirs p ev w) as Hsd1.
    destruct (extract_outcome_not_dir p ev w) as (w1 & r & Hex);
      [by rewrite Hsd|].
    rewrite Hex in *. simpl. split; [by eapply same_dirs_trans|].
    by exists uri.
Qed.

Lemma unit_step_tracks (uris : list string) (ev : env) (m : gmap path node)
    (d : path) (choice : nat) (pl : pool) (w : world) :
  pool_tracks uris ev m d w pl →
  ∃ w' pl',
    unit_step false (step_sync d) choice pl ev w = (w', Ret pl')
    ∧ pool_tracks uris ev m d w' pl'.
Proof.
  intros (Hsd & Hunits & Hfin). unfold unit_step.
  destruct (running pl !! _) as [[id s]|] eqn:Hlook;
    [|by eexists _, _].
  apply list_elem_of_split_length in Hlook as (l1 & l2 & Hrun & Hi).
  rewrite Hi. unfold units in Hunits. rewrite Hrun in Hunits.
  apply Forall_app in Hunits as [Hq Hr].
  apply Forall_app in Hr as [H1 H2].
  apply Forall_cons in H2 as [Hs H2].
  destruct (step_sync_tracks uris ev m d w id s Hsd Hs) as [Hsd' Hres].
  destruct (step_sync d s ev w) as [w1 [[s'|]|e]]; simpl in *;
    eexists _, _; (split; [done|]); (split; [done|]);
    unfold units; simpl.
  - rewrite Hrun, insert_app_r_alt, Nat.sub_diag by done. simpl.
    rewrite !Forall_app, Forall_cons. auto.
  - rewrite Hrun, delete_middle, !Forall_app, Forall_singleton. auto.
  - rewrite Hrun, delete_middle, !Forall_app, Forall_singleton. auto.
Qed.

Lemma run_units_tracks (uris : list string) (ev : env) (m : gmap path node)
    (d : path) (mw : option nat) (fuel t : nat) (pl : pool) (w : world) :
  pool_tracks uris ev m d w pl →
  ∃ w' pl',
    run_units mw false (step_sync d) fuel t pl ev w = (w', Ret pl')
    ∧ pool_tracks uris ev m d w' pl'.
Proof.
  revert t pl w. induction fuel as [|fuel IH]; intros t pl w Htr; simpl.
  - by eexists _, _.
  - unfold bind, ask.
    destruct (unit_step_tracks uris ev m d (sched ev t)
                (start_queued mw pl) w) as (w1 & pl1 & -> & Htr1).
    + destruct Htr as (Hsd & Hunits & Hfin). split; [done|].
      split; [|done]. by rewrite units_start_queued.
    + by apply IH.
Qed.

Lemma submitted_tracks (uris : list string) (ev : env) (m : gmap path node)
    (d : path) (w : world) :
  same_dirs m (fs w) → pool_tracks uris ev m d w (submit_all uris).
Proof.
  intros Hsd. split; [done|]. split; [|constructor].
  unfold units. simpl. rewrite app_nil_r.
  apply Forall_lookup. intros i [id s] Hi.
  rewrite list_lookup_imap in Hi.
  destruct (uris !! i) as [uri|] eqn:Huri; [|done].
  by injection Hi as <- <-.
Qed.

Lemma lookup_future_found (fin : list (nat * result unit)) (id : nat) :
  id ∈ fin.*1 → ∃ r, lookup_future fin id = Some r.
Proof.
  induction fin as [|[id' r'] fin IH]; simpl; [by intros ?%elem_of_nil|].
  case_decide; [eauto|].
  intros [Heq|Hin]%elem_of_cons; [congruence|auto].
Qed.

Lemma future_results_return (pl : pool) (ids : list nat) (ev : env)
    (w : world) :
  (for_each ids (future_result pl) ev w).2 = Ret tt
  ↔ ∀ id e, id ∈ ids → lookup_future (finished pl) id ≠ Some (Raise e).
Proof.
  revert w. induction ids as [|id ids IH]; intros w; simpl.
  - split; [by intros _ ?? ?%elem_of_nil|done].
  - unfold bind, future_result at 1.
    destruct (lookup_future (finished pl) id) as [[[]|e]|] eqn:Hl; simpl.
    + rewrite IH. split.
      * intros Hall id' e' [->|Hin]%elem_of_cons; [congruence|auto].
      * intros Hall id' e' Hin. apply Hall. by right.
    + split; [done|]. intros Hall. destruct (Hall id e); [by left|done].
    + rewrite IH. split.
      * intros Hall id' e' [->|Hin]%elem_of_cons; [congruence|auto].
      * intros Hall id' e' Hin. apply Hall. by right.
Qed.

Lemma main_threaded_effect (uris : list string) (ev : env) (w : world) :
  is_file (fs w) ["downloads"] = false →
  (main_threaded uris ev w).2 = Ret tt
  ↔ Forall (unobstructed ev (<[["downloads"] := Dir]> (fs w)) ["downloads"])
      uris.
Proof.
  intros Hdir.
  set (m := <[["downloads"] := Dir]> (fs w)).
  set (w0 := World (fs w)
               (trace w ++ [Print (Text "Starting threaded download...")])).
  set (w1 := World (<[["downloads"] := Dir]> (fs w0)) (trace w0)).
  destruct (run_units_tracks uris ev m ["downloads"] (Some 3%nat)
              (enough_fuel uris) 0 (submit_all uris) w1)
    as (w2 & pl & Hrun & _ & _ & Hfin);
    [by apply submitted_tracks|].
  destruct (run_submitted (Some 3%nat) false (step_sync ["downloads"]) uris ev
              w1 w2 pl) as (_ & Hids & _);
    [done | apply step_sync_gets | apply step_sync_next | exact Hrun |].
  assert ((main_threaded uris ev w).2 = Ret tt
          ↔ (for_each (seq 0 (length uris)) (future_result pl) ev w2).2
            = Ret tt) as ->.
  { unfold main_threaded, bind, print, emit. fold w0.
    rewrite (create_downloads_directory_ok ev w0) by done.
    fold w1. unfold threaded_units. rewrite Hrun.
    by destruct (for_each _ _ ev w2) as [w3 [[]|e]]. }
  rewrite future_results_return.
  unfold future_tracks in Hfin. rewrite Forall_forall in Hfin.
  split.
  - intros Hall. apply Forall_lookup. intros i uri Huri.
    assert (i ∈ (finished pl).*1) as Hin.
    { rewrite Hids. apply elem_of_seq. apply lookup_lt_Some in Huri. lia. }
    destruct (lookup_future_found _ _ Hin) as [r Hr].
    apply lookup_future_elem in Hr as Hel.
    destruct (Hfin _ Hel) as (uri' & Huri' & Hok). simpl in *.
    assert (uri' = uri) as -> by congruence.
    destruct r as [[]|e]; [done|].
    destruct (Hall i e); [|done].
    apply elem_of_seq. apply lookup_lt_Some in Huri. lia.
  - intros Hall id e Hid Hl. apply lookup_future_elem in Hl.
    destruct (Hfin _ Hl) as (uri & Huri & Hno). simpl in *.
    apply Hno. rewrite Forall_lookup in Hall. by eapply Hall.
Qed.


(** ** What leaves [main] *)

Lemma raises_only_try_except {A} (P : exn → Prop) (c : M A)
    (handles : exn → bool) (handler : exn → M A) :
  raises_only (λ e, handles e = true ∨ P e) c →
  (∀ e, raises_only P (handler e)) →
  raises_only P (try_except c handles handler).
Proof.
  intros Hc Hh ev w w' e. unfold try_except.
  destruct (c ev w) as [w1 [a|e1]] eqn:Hrun; [done|].
  destruct (handles e1) eqn:He1; [apply Hh|].
  intros [= <- <-]. destruct (Hc _ _ _ _ Hrun); congruence.
Qed.

Lemma raises_only_input (prompt : string) :
  raises_only (λ e, is_EOFError_or_KeyboardInterrupt e = true) (input prompt).
Proof.
  intros ev w w' e. unfold input. munfold.
  destruct (stdin_line ev); [done|]. by intros [= <- <-].
Qed.

Lemma raises_only_menu (P : exn → Prop) : raises_only P menu.
Proof.
  unfold menu.
  repeat (apply raises_only_bind; [|intros ?]); apply raises_only_print.
Qed.

(** X17. With failures coming from the server, the archives, the file
    system and the end of standard input, the only exceptions that leave
    [main] are errors of the file system: no HTTP or transport error, no
    bad archive and no end of input gets out, whichever strategy is
    chosen. *)
Theorem main_raises_only_OSError (uris : list string) (ev : env)
    (w w' : world) (e : exn) :
  main uris ev w = (w', Raise e) → is_OSError e = true.
Proof.
  revert ev w w' e.
  change (raises_only (λ e, is_OSError e = true) (main uris)).
  assert (∀ (P Q : exn → Prop) (c : M unit),
            raises_only Q c → raises_only (λ e, P e ∨ Q e) c) as Hright.
  { intros P Q c. apply raises_only_weaken. auto. }
  unfold main. apply raises_only_try_except.
  - intros ev w w' e. unfold bind at 1, ask. cbv beta iota.
    destruct (negb (stdin_isatty ev)).
    + refine (Hright (λ e, is_EOFError_or_KeyboardInterrupt e = true)
                (λ e, is_OSError e = true) _ _ ev w w' e).
      apply raises_only_bind;
        [apply raises_only_print | intros _; apply main_sync_raises_only].
    + refine (raises_only_bind
                (λ e, is_EOFError_or_KeyboardInterrupt e = true
                      ∨ is_OSError e = true) _ _ _ _ ev w w' e);
        [apply raises_only_menu|intros _].
      apply raises_only_bind.
      * eapply raises_only_weaken; [|apply raises_only_input]. auto.
      * intros line. simpl. unfold asyncio_run.
        repeat case_decide; apply Hright;
          auto using main_threaded_raises_only, main_async_raises_only,
            main_sync_raises_only.
  - intros e0. apply raises_only_bind;
      [apply raises_only_print | intros _; apply main_sync_raises_only].
Qed.

(** With [downloads] taken by a file, [main] ends with
    [FileExistsError], which is an [OSError]. *)
Lemma main_raises_only_OSError_witness :
  ∃ w' e,
    main download_uris headless (World {[ ["downloads"] := File [] ]} [])
      = (w', Raise e)
    ∧ is_OSError e = true.
Proof.
  eexists _, _. split; [vm_compute; reflexivity|].
  eapply (main_raises_only_OSError download_uris headless
            (World {[ ["downloads"] := File [] ]} [])).
  vm_compute. reflexivity.
Defined.

(** ** Nothing is touched outside [downloads] *)

Lemma kept_refl (d : path) (m : gmap path node) : kept d m m.
Proof. by split. Qed.

Lemma kept_trans (d : path) (m1 m2 m3 : gmap path node) :
  kept d m1 m2 → kept d m2 m3 → kept d m1 m3.
Proof.
  intros [Hs12 H12] [Hs23 H23]. split; [by eapply same_dirs_trans|].
  intros q Hq. by rewrite H23, H12.
Qed.

Lemma kept_insert_file (d : path) (m : gmap path node) (p : path)
    (data : bytes) :
  parent p = d → is_dir m p = false → kept d m (<[p := File data]> m).
Proof.
  intros Hp Hnd. split; [by apply same_dirs_insert_file|].
  intros q Hq. rewrite lookup_insert_ne; [done|]. congruence.
Qed.

Lemma kept_delete_file (d : path) (m : gmap path node) (p : path) :
  parent p = d → is_dir m p = false → kept d m (delete p m).
Proof.
  intros Hp Hnd. split; [by apply same_dirs_delete_file|].
  intros q Hq. rewrite lookup_delete_ne; [done|]. congruence.
Qed.

Lemma parent_child (d : path) (n : string) : parent (d ++ [n]) = d.
Proof. unfold parent. apply removelast_last. Qed.

Lemma unpack_kept (dir : path) (entries : list (string * bytes))
    (m : gmap path node) :
  kept dir m (unpack dir entries m).1.
Proof.
  revert m. induction entries as [|[n data] rest IH]; intros m; simpl.
  - apply kept_refl.
  - destruct (open_error m (dir ++ [n])) as [e|] eqn:Hopen;
      [apply kept_refl|].
    eapply kept_trans; [|apply IH].
    apply kept_insert_file; [apply parent_child|].
    by apply writable_not_dir, open_error_writable.
Qed.

Lemma extract_outcome_kept (p : path) (ev : env) (w : world) :
  kept (parent p) (fs w) (fs (extract_outcome p ev w).1).
Proof.
  unfold extract_outcome.
  destruct (node_at (fs w) p) as [[data|]|] eqn:Hp;
    [|apply kept_refl..].
  assert (is_dir (fs w) p = false) as Hnd by (unfold is_dir; by rewrite Hp).
  destruct (zip_decode ev data) as [entries|];
    [|by apply kept_delete_file].
  pose proof (unpack_kept (parent p) entries (fs w)) as Hk.
  assert (kept (parent p) (fs w)
            (delete p (unpack (parent p) entries (fs w)).1)) as Hdel.
  { eapply kept_trans; [exact Hk|].
    apply kept_delete_file; [done|]. destruct Hk as [Hsd _]. by rewrite Hsd. }
  by destruct (unpack (parent p) entries (fs w)) as [m [e|]].
Qed.

(** A fetch into a directory [d] that stands in a directory writes in
    [d] only, and the path it hands on is in [d]. *)
Lemma fetch_outcome_kept (t : Z) (passes : response → bool)
    (catches_os : bool) (uri : string) (d : path) (ev : env) (w : world) :
  is_dir (fs w) d = true →
  is_dir (fs w) (parent d) = true →
  kept d (fs w) (fs (fetch_outcome t passes catches_os uri d ev w).1)
  ∧ ∀ p, (fetch_outcome t passes catches_os uri d ev w).2 = Ret (Some p) →
         parent p = d.
Proof.
  intros Hd Hpd. unfold fetch_outcome.
  destruct (http ev uri) as [|s body br]; [by split; [apply kept_refl|]|].
  destruct (passes _); [|by split; [apply kept_refl|]].
  fold (target_of d uri).
  destruct (open_error (fs w) (target_of d uri)) as [e|] eqn:Hopen.
  - destruct catches_os; by split; [apply kept_refl|].
  - apply open_error_writable, writable_not_dir in Hopen.
    assert (parent (target_of d uri) = d) as Hin.
    { destruct (target_of_cases d uri) as [Ht|[Ht|[Ht _]]];
        rewrite Ht in *; [congruence..|apply parent_child]. }
    destruct (stream_breaks _); simpl;
      (split; [by apply kept_insert_file|]); [done|].
    by intros p [= <-].
Qed.

Lemma step_kept (t : Z) (passes : response → bool) (catches_os : bool)
    (step : stage → M (option stage)) (d : path) :
  (∀ uri ev w,
     step (Fetch uri) ev w
     = match fetch_outcome t passes catches_os uri d ev w with
       | (w', Ret o) => (w', Ret (Unpack <$> o))
       | (w', Raise e) => (w', Raise e)
       end) →
  (∀ p ev w,
     step (Unpack p) ev w
     = match extract_outcome p ev w with
       | (w', Ret _) => (w', Ret None)
       | (w', Raise e) => (w', Raise e)
       end) →
  ∀ s ev w,
    is_dir (fs w) d = true →
    is_dir (fs w) (parent d) = true →
    stage_inside d s →
    kept d (fs w) (fs (step s ev w).1)
    ∧ ∀ s', (step s ev w).2 = Ret (Some s') → stage_inside d s'.
Proof.
  intros Hfetch Hunpack [uri|p] ev w Hd Hpd Hin.
  - rewrite Hfetch.
    destruct (fetch_outcome_kept t passes catches_os uri d ev w Hd Hpd)
      as [Hk Hp].
    destruct (fetch_outcome _ _ _ _ _ _ _) as [w1 [[p|]|e]]; simpl in *;
      (split; [done|]); [|done..].
    intros s' [= <-]. simpl. by apply Hp.
  - rewrite Hunpack. simpl in Hin. subst d.
    pose proof (extract_outcome_kept p ev w) as Hk.
    by destruct (extract_outcome p ev w) as [w1 [r|e]].
Qed.

Lemma step_sync_kept (d : path) (s : stage) (ev : env) (w : world) :
  is_dir (fs w) d = true →
  is_dir (fs w) (parent d) = true →
  stage_inside d s →
  kept d (fs w) (fs (step_sync d s ev w).1)
  ∧ ∀ s', (step_sync d s ev w).2 = Ret (Some s') → stage_inside d s'.
Proof.
  apply (step_kept 30 passes_status false).
  - intros uri ev' w'. simpl. unfold bind, ret.
    rewrite download_file_sync_outcome.
    by destruct (fetch_outcome _ _ _ _ _ _ _) as [w1 [o|e]].
  - intros p ev' w'. simpl. unfold bind, ret.
    rewrite extract_zip_file_outcome.
    by destruct (extract_outcome _ _ _) as [w1 [o|e]].
Qed.

Lemma step_async_kept (session : ClientSession) (d : path) (s : stage)
    (ev : env) (w : world) :
  is_dir (fs w) d = true →
  is_dir (fs w) (parent d) = true →
  stage_inside d s →
  kept d (fs w) (fs (step_async session d s ev w).1)
  ∧ ∀ s', (step_async session d s ev w).2 = Ret (Some s') → stage_inside d s'.
Proof.
  apply (step_kept 60 passes_status_aio true).
  - intros uri ev' w'. simpl. unfold bind, ret.
    rewrite download_file_async_outcome.
    by destruct (fetch_outcome _ _ _ _ _ _ _) as [w1 [o|e]].
  - intros p ev' w'. simpl. unfold bind, ret.
    rewrite extract_zip_file_outcome.
    by destruct (extract_outcome _ _ _) as [w1 [o|e]].
Qed.

Section kept_steps.
Variable max_workers : option nat.
Variable fail_fast : bool.
Variable step : stage → M (option stage).
Variable d : path.

Hypothesis step_inside : ∀ s ev w,
  is_dir (fs w) d = true →
  is_dir (fs w) (parent d) = true →
  stage_inside d s →
  kept d (fs w) (fs (step s ev w).1)
  ∧ ∀ s', (step s ev w).2 = Ret (Some s') → stage_inside d s'.

(** However the units are scheduled, and whether the run returns or
    gives up on an exception, it writes in [d] only. *)
Lemma run_units_kept (fuel t : nat) (pl : pool) (ev : env) (w : world) :
  is_dir (fs w) d = true →
  is_dir (fs w) (parent d) = true →
  Forall (λ u, stage_inside d u.2) (units pl) →
  kept d (fs w)
    (fs (run_units max_workers fail_fast step fuel t pl ev w).1).
Proof.
  revert t pl w. induction fuel as [|fuel IH]; intros t pl w Hd Hpd Hin;
    simpl; [apply kept_refl|].
  unfold bind, ask.
  assert (Forall (λ u, stage_inside d u.2)
            (units (start_queued max_workers pl))) as Hin0
    by (by rewrite units_start_queued).
  set (pl0 := start_queued max_workers pl) in *. clearbody pl0.
  unfold unit_step.
  destruct (running pl0 !! _) as [[id s]|] eqn:Hlook; [|by apply IH].
  apply list_elem_of_split_length in Hlook as (l1 & l2 & Hrun & Hi).
  rewrite Hi. unfold units in Hin0. rewrite Hrun in Hin0.
  apply Forall_app in Hin0 as [Hq Hr].
  apply Forall_app in Hr as [H1 H2].
  apply Forall_cons in H2 as [Hs H2]. simpl in Hs.
  destruct (step_inside s ev w Hd Hpd Hs) as [Hk Hnext].
  destruct Hk as [Hsd Hout].
  assert (∀ pl1, Forall (λ u, stage_inside d u.2) (units pl1) →
            kept d (fs w)
              (fs (run_units max_workers fail_fast step fuel (S t) pl1 ev
                     (step s ev w).1).1)) as Hgo.
  { intros pl1 Hpl1. eapply kept_trans; [by split|].
    apply IH; [by rewrite Hsd..|done]. }
  destruct (step s ev w) as [w1 [[s'|]|e]]; simpl in *.
  - apply Hgo. unfold units. simpl.
    rewrite Hrun, insert_app_r_alt, Nat.sub_diag by done. simpl.
    rewrite !Forall_app, Forall_cons. auto.
  - apply Hgo. unfold units. simpl.
    rewrite Hrun, delete_middle, !Forall_app. auto.
  - destruct fail_fast; [by split|].
    apply Hgo. unfold units. simpl.
    rewrite Hrun, delete_middle, !Forall_app. auto.
Qed.
End kept_steps.

Lemma submitted_inside (g : nat → nat) (d : path) (uris : list string) :
  Forall (λ u, stage_inside d u.2) (imap (λ i uri, (g i, Fetch uri)) uris).
Proof.
  revert g. induction uris as [|uri uris IH]; intros g; [constructor|].
  rewrite imap_cons. constructor; [done|]. exact (IH (g ∘ S)).
Qed.

Lemma unit_sync_kept (uri : string) (d : path) (ev : env) (w : world) :
  is_dir (fs w) d = true →
  is_dir (fs w) (parent d) = true →
  kept d (fs w) (fs (download_and_extract_sync uri d ev w).1).
Proof.
  intros Hd Hpd. rewrite download_and_extract_sync_outcome.
  destruct (fetch_outcome_kept 30 passes_status false uri d ev w Hd Hpd)
    as [Hk Hp].
  destruct (fetch_outcome _ _ _ _ _ _ _) as [w1 [[p|]|e]]; simpl in *;
    [|done..].
  pose proof (extract_outcome_kept p ev w1) as Hk2.
  rewrite (Hp p eq_refl) in Hk2.
  destruct (extract_outcome p ev w1) as [w2 [r|e]]; by eapply kept_trans.
Qed.

Lemma sync_loop_kept (uris : list string) (d : path) (ev : env) (w : world) :
  is_dir (fs w) d = true →
  is_dir (fs w) (parent d) = true →
  kept d (fs w)
    (fs (for_each uris (λ u, download_and_extract_sync u d) ev w).1).
Proof.
  revert w. induction uris as [|uri rest IH]; intros w Hd Hpd; simpl;
    [apply kept_refl|].
  unfold bind.
  pose proof (unit_sync_kept uri d ev w Hd Hpd) as Hk.
  destruct (download_and_extract_sync uri d ev w) as [w1 [[]|e]];
    simpl in *; [|done].
  eapply kept_trans; [exact Hk|]. destruct Hk as [Hsd _].
  apply IH; by rewrite Hsd.
Qed.

(** *** Composition *)

Lemma keeps_bind {A B} (q : path) (c : M A) (k : A → M B) :
  keeps q c → (∀ a, keeps q (k a)) → keeps q (bind c k).
Proof.
  intros Hc Hk ev w. unfold bind. specialize (Hc ev w).
  destruct (c ev w) as [w1 [a|e]]; simpl in *; [|done].
  by rewrite Hk.
Qed.

Lemma keeps_print (q : path) (m : message) : keeps q (print m).
Proof. by intros ev w. Qed.

Lemma keeps_for_each {A} (q : path) (l : list A) (body : A → M unit) :
  (∀ x, keeps q (body x)) → keeps q (for_each l body).
Proof.
  intros Hbody. induction l as [|x l IH]; simpl; [by intros ev w|].
  apply keeps_bind; auto.
Qed.

Lemma keeps_try_except {A} (q : path) (c : M A) (handles : exn → bool)
    (handler : exn → M A) :
  keeps q c → (∀ e, keeps q (handler e)) →
  keeps q (try_except c handles handler).
Proof.
  intros Hc Hh ev w. unfold try_except. specialize (Hc ev w).
  destruct (c ev w) as [w1 [a|e]]; simpl in *; [done|].
  destruct (handles e); [|done]. by rewrite Hh.
Qed.

Lemma keeps_future_result (q : path) (pl : pool) (id : nat) :
  keeps q (future_result pl id).
Proof.
  intros ev w. unfold future_result.
  by destruct (lookup_future (finished pl) id) as [[[]|e]|].
Qed.

Lemma outside_downloads (q : path) :
  ¬ ["downloads"] `prefix_of` q →
  q ≠ ["downloads"] ∧ parent q ≠ ["downloads"].
Proof.
  intros Hq. split.
  - intros ->. by apply Hq.
  - intros Hp. apply Hq. destruct (decide (q = [])) as [->|Hne]; [done|].
    destruct (exists_last Hne) as (q' & n & ->).
    rewrite parent_child in Hp. subst q'. by apply prefix_app_r.
Qed.

(** After [create_downloads_directory], a computation that writes in
    [downloads] only keeps everything else. *)
Lemma keeps_after_create {A} (q : path) (k : path → M A) :
  q ≠ ["downloads"] → parent q ≠ ["downloads"] →
  (∀ ev w,
     is_dir (fs w) ["downloads"] = true →
     kept ["downloads"] (fs w) (fs (k ["downloads"] ev w).1)) →
  keeps q (bind create_downloads_directory k).
Proof.
  intros Hq Hpq Hk ev w. unfold bind.
  destruct (is_file (fs w) ["downloads"]) eqn:Hdir.
  - by rewrite create_downloads_directory_blocked.
  - rewrite create_downloads_directory_ok by done.
    set (w1 := World (<[["downloads"] := Dir]> (fs w)) (trace w)).
    destruct (Hk ev w1) as [_ Hout].
    { unfold is_dir. simpl. by rewrite lookup_insert_eq. }
    rewrite Hout by done. simpl. by rewrite lookup_insert_ne.
Qed.

Lemma main_sync_keeps (uris : list string) (q : path) :
  q ≠ ["downloads"] → parent q ≠ ["downloads"] → keeps q (main_sync uris).
Proof.
  intros Hq Hpq. unfold main_sync.
  apply keeps_bind; [apply keeps_print|intros _].
  apply keeps_after_create; [done..|]. intros ev w Hd.
  unfold bind.
  pose proof (sync_loop_kept uris ["downloads"] ev w Hd eq_refl) as Hk.
  by destruct (for_each _ _ ev w) as [w1 [[]|e]].
Qed.

Lemma main_threaded_keeps (uris : list string) (q : path) :
  q ≠ ["downloads"] → parent q ≠ ["downloads"] → keeps q (main_threaded uris).
Proof.
  intros Hq Hpq. unfold main_threaded.
  apply keeps_bind; [apply keeps_print|intros _].
  apply keeps_after_create; [done..|]. intros ev w Hd.
  unfold bind at 1, threaded_units.
  pose proof (run_units_kept (Some 3%nat) false (step_sync ["downloads"])
                ["downloads"] (step_sync_kept ["downloads"])
                (enough_fuel uris) 0 (submit_all uris) ev w Hd eq_refl)
    as Hk.
  destruct (run_units _ _ _ _ _ _ ev w) as [w1 [pl|e]]; simpl in *.
  - assert (fs (bind (for_each (seq 0 (length uris)) (future_result pl))
                  (λ _, print (Text "Threaded download completed")) ev w1).1
            = fs w1) as ->; [|apply Hk].
    { unfold bind.
      assert (∀ l w2, fs (for_each l (future_result pl) ev w2).1 = fs w2)
        as Hsame.
      { induction l as [|id l IH]; intros w2; simpl; [done|].
        unfold bind, future_result at 1.
        destruct (lookup_future (finished pl) id) as [[[]|e]|]; simpl;
          by rewrite ?IH. }
      specialize (Hsame (seq 0 (length uris)) w1).
      by destruct (for_each _ _ ev w1) as [w2 [[]|e]]. }
    { unfold units. simpl. rewrite app_nil_r.
      apply (submitted_inside (λ i, i)). }
  - apply Hk. unfold units. simpl. rewrite app_nil_r.
    apply (submitted_inside (λ i, i)).
Qed.

Lemma main_async_keeps (uris : list string) (q : path) :
  q ≠ ["downloads"] → parent q ≠ ["downloads"] → keeps q (main_async uris).
Proof.
  intros Hq Hpq. unfold main_async.
  apply keeps_bind; [apply keeps_print|intros _].
  apply keeps_after_create; [done..|]. intros ev w Hd.
  unfold bind, gathered_units.
  pose proof (run_units_kept None true (step_async Session ["downloads"])
                ["downloads"] (step_async_kept Session ["downloads"])
                (enough_fuel uris) 0 (submit_all uris) ev w Hd eq_refl)
    as Hk.
  destruct (run_units _ _ _ _ _ _ ev w) as [w1 [pl|e]]; simpl in *;
    apply Hk; unfold units; simpl; rewrite app_nil_r;
    apply (submitted_inside (λ i, i)).
Qed.

Lemma keeps_input (q : path) (prompt : string) : keeps q (input prompt).
Proof.
  intros ev w. unfold input. munfold. by destruct (stdin_line ev).
Qed.

Lemma keeps_menu (q : path) : keeps q menu.
Proof.
  unfold menu. repeat (apply keeps_bind; [|intros ?]); apply keeps_print.
Qed.

(** X18. Whatever the input, the strategy, the server's answers, the
    archives and the schedule, and whether the run returns or ends with
    an exception, [main] and the three orchestrators change the file
    system under [downloads] only: any path that does not start with
    [downloads] holds afterwards what it held before. *)
Theorem nothing_changes_outside_downloads (uris : list string) (ev : env)
    (w : world) (q : path) :
  ¬ ["downloads"] `prefix_of` q →
  fs (main uris ev w).1 !! q = fs w !! q
  ∧ fs (main_sync uris ev w).1 !! q = fs w !! q
  ∧ fs (main_threaded uris ev w).1 !! q = fs w !! q
  ∧ fs (main_async uris ev w).1 !! q = fs w !! q.
Proof.
  intros [Hq Hpq]%outside_downloads.
  pose proof (main_sync_keeps uris q Hq Hpq) as Hsync.
  pose proof (main_threaded_keeps uris q Hq Hpq) as Hthr.
  pose proof (main_async_keeps uris q Hq Hpq) as Hasy.
  split; [|by split; [|split]].
  revert ev w. change (keeps q (main uris)). unfold main.
  apply keeps_try_except.
  - intros ev w. unfold bind at 1, ask. cbv beta iota.
    destruct (negb (stdin_isatty ev)).
    + refine (keeps_bind q _ _ _ _ ev w); [apply keeps_print|by intros _].
    + refine (keeps_bind q _ _ _ _ ev w); [apply keeps_menu|intros _].
      apply keeps_bind; [apply keeps_input|intros line].
      simpl. unfold asyncio_run. by repeat case_decide.
  - intros e. apply keeps_bind; [apply keeps_print|by intros _].
Qed.

(** A file beside [downloads] is there after a run of the thread pool
    over the list of the program. *)
Lemma nothing_changes_outside_downloads_witness :
  fs (main_threaded download_uris headless
        (World {[ ["notes.txt"] := File [] ]} [])).1 !! ["notes.txt"]
  = Some (File []).
Proof.
  destruct (nothing_changes_outside_downloads download_uris headless
              (World {[ ["notes.txt"] := File [] ]} []) ["notes.txt"])
    as (_ & _ & Hthr & _).
  - intros [k Hk]. discriminate Hk.
  - exact Hthr.
Defined.

(** ** The order of the sequential run *)

Lemma reached_same_dirs (uris : list string) (d : path) (ev : env)
    (m m' : gmap path node) :
  same_dirs m m' → reached uris d ev m' = reached uris d ev m.
Proof.
  intros Hsd. induction uris as [|uri rest IH]; simpl; [done|].
  by rewrite (unit_raises_same_dirs _ _ _ m m'), IH.
Qed.

Lemma reached_prefix (uris : list string) (d : path) (ev : env)
    (m : gmap path node) :
  reached uris d ev m `prefix_of` uris
  ∧ (reached uris d ev m = uris
     ∨ ∃ u, last (reached uris d ev m) = Some u
            ∧ unit_raises u d ev m = true).
Proof.
  induction uris as [|uri rest [IHp IHl]]; simpl; [by split; [|left]|].
  destruct (unit_raises uri d ev m) eqn:Hr.
  - split; [by apply (prefix_app_r [uri] [uri] rest)|]. right. by exists uri.
  - split; [by apply prefix_cons|].
    destruct IHl as [->|(u & Hlast & Hu)]; [by left|right].
    exists u. split; [|done].
    destruct (reached rest d ev m) as [|v l]; [done|].
    by rewrite last_cons_cons.
Qed.

Lemma unit_sync_requests (uri : string) (d : path) (ev : env) (w : world) :
  ∃ seg,
    trace (download_and_extract_sync uri d ev w).1 = trace w ++ seg
    ∧ requests_of seg = [(uri, 30%Z)].
Proof.
  rewrite download_and_extract_sync_outcome.
  pose proof (fetch_outcome_observed 30 passes_status false uri d ev w)
    as (seg & Htr & Hreq & _).
  destruct (fetch_outcome _ _ _ _ _ _ _) as [w1 [[p|]|e]]; simpl in *;
    [|by exists seg..].
  pose proof (extract_outcome_observed p ev w1) as (m & Htr2 & _).
  exists (seg ++ [Print m]).
  split.
  - destruct (extract_outcome p ev w1) as [w2 [r|e]]; simpl in *;
      by rewrite Htr2, Htr, <- app_assoc.
  - observe. by rewrite Hreq.
Qed.

Lemma sync_loop_requests (uris : list string) (d : path) (ev : env)
    (w : world) :
  ∃ seg,
    trace (for_each uris (λ u, download_and_extract_sync u d) ev w).1
      = trace w ++ seg
    ∧ requests_of seg = (λ u, (u, 30%Z)) <$> reached uris d ev (fs w).
Proof.
  revert w. induction uris as [|uri rest IH]; intros w; simpl.
  - exists []. by rewrite app_nil_r.
  - destruct (unit_sync_requests uri d ev w) as (seg1 & Htr1 & Hreq1).
    destruct (unit_sync_effect uri d ev w) as [_ Hres].
    pose proof (unit_sync_same_dirs uri d ev w) as Hsd.
    unfold bind.
    destruct (download_and_extract_sync uri d ev w) as [w1 [[]|e]] eqn:Hun;
      simpl in *.
    + destruct (unit_raises uri d ev (fs w)); [by destruct Hres|].
      destruct (IH w1) as (seg2 & Htr2 & Hreq2).
      exists (seg1 ++ seg2). split; [by rewrite Htr2, Htr1, <- app_assoc|].
      rewrite requests_of_app, Hreq1, Hreq2.
      by rewrite (reached_same_dirs _ _ _ (fs w) (fs w1)).
    + destruct (unit_raises uri d ev (fs w)); [|done].
      exists seg1. by split.
Qed.


(** ** A stream that breaks *)

Lemma take_chunked_aux (n fuel k : nat) (b : bytes) :
  (0 < n)%nat → (length b ≤ fuel)%nat →
  concat (take k (chunked_aux fuel n b)) = take (k * n) b.
Proof.
  intros Hn. revert k b. induction fuel as [|fuel IH]; intros k b Hlen.
  - destruct b; [|simpl in Hlen; lia]. simpl. by rewrite !take_nil.
  - destruct b as [|x b]; [simpl; by rewrite !take_nil|].
    change (chunked_aux (S fuel) n (x :: b))
      with (take n (x :: b) :: chunked_aux fuel n (drop n (x :: b))).
    destruct k as [|k]; [done|].
    change (concat (take (S k) (?c :: ?l))) with (c ++ concat (take k l)).
    rewrite IH by (rewrite length_drop; simpl in *; lia).
    rewrite take_take_drop. f_equal; lia.
Qed.



(** ** A clean working directory *)

Ltac run_returns H :=
  match goal with
  | |- context [main_sync ?uris ?ev ?W] =>
      let Hrun := fresh "Hrun" in
      pose proof (H W eq_refl) as Hrun;
      destruct (main_sync uris ev W) as [? [[]|?]]; simpl in *;
      [done|discriminate Hrun]
  | |- context [main_threaded ?uris ?ev ?W] =>
      let Hrun := fresh "Hrun" in
      pose proof (H W eq_refl) as Hrun;
      destruct (main_threaded uris ev W) as [? [[]|?]]; simpl in *;
      [done|discriminate Hrun]
  | |- context [main_async ?uris ?ev ?W] =>
      let Hrun := fresh "Hrun" in
      pose proof (H W eq_refl) as Hrun;
      destruct (main_async uris ev W) as [? [[]|?]]; simpl in *;
      [done|discriminate Hrun]
  end.

(** [main] returns when the orchestrator it picks does. *)
Lemma main_result (uris : list string) (ev : env) (w : world) :
  (∀ w', fs w' = fs w → (main_sync uris ev w').2 = Ret tt) →
  (∀ w', fs w' = fs w → (main_threaded uris ev w').2 = Ret tt) →
  (∀ w', fs w' = fs w → (main_async uris ev w').2 = Ret tt) →
  (main uris ev w).2 = Ret tt.
Proof.
  intros Hsync Hthr Hasy. unfold main, try_except, bind at 1, ask.
  cbv beta iota.
  destruct (stdin_isatty ev); simpl.
  - unfold menu, input. munfold.
    destruct (stdin_line ev) as [line|]; simpl.
    + unfold asyncio_run.
      repeat case_decide;
        [run_returns Hthr | run_returns Hasy | run_returns Hsync].
    + apply Hsync. done.
  - unfold bind at 1, print, emit. run_returns Hsync.
Qed.

Lemma clean_unobstructed (uris : list string) (ev : env)
    (m : gmap path node) :
  (∀ n, is_dir m ["downloads"; n] = false) →
  Forall (λ u, extract_filename_from_uri u ∉ [""; "."; ".."]) uris →
  Forall (unobstructed ev (<[["downloads"] := Dir]> m) ["downloads"]) uris.
Proof.
  intros Hclean Hnames. eapply Forall_impl; [exact Hnames|].
  intros u Hu. right.
  assert (path_join ["downloads"] (extract_filename_from_uri u)
          = ["downloads"; extract_filename_from_uri u]) as ->.
  { unfold path_join.
    case_decide as Hdot; [|case_decide as Hup; [|done]]; exfalso; apply Hu.
    - destruct Hdot as [-> | ->]; repeat constructor.
    - rewrite Hup. repeat constructor. }
  unfold writable, is_dir in *. simpl.
  rewrite lookup_insert_ne by done. rewrite lookup_insert_eq.
  specialize (Hclean (extract_filename_from_uri u)). simpl in Hclean.
  by destruct (m !! _) as [[]|].
Qed.


